(** * Florida Coastal LiDAR viewer: ranking, styling and overlay filtering

    A shallow embedding of the pure logic of [App.jsx]:
    - [getQualityScore] and the comparator / sort / selection performed by
      [handleSearchComplete];
    - [applyColorScheme] and [applySeaLevelFilter], as state transformers on
      the layers of the map;
    - the Florida feature filter of the map [load] handler.

    Modelling conventions.
    - JavaScript strings are modelled as [string] (sequences of 8-bit
      characters); [toUpperCase] maps [a]..[z] to [A]..[Z] and leaves every
      other character alone, which is what [String.prototype.toUpperCase]
      does on ASCII text.
    - Loosely typed fields ([qualityLevel], [publicationDate], [date],
      [state], [STATE]) are values of type [value]: [undefined], [null], a
      boolean, an integer-valued number or a string.  Objects and arrays in
      these fields are outside the model.
    - The result of [Date.prototype.getTime] and of the comparator is a
      [number]: an integer or [NaN].  [Date.parse] belongs to the engine
      and is a parameter of the ranking; [Date_parse_iso] is an instance
      for the date-only ISO forms.
    - Literals of style expressions are rationals ([Q]), written as in the
      source ([2.5], [3.5]). *)

From Stdlib Require Import ZArith QArith String Ascii List Bool Lia.
From Stdlib Require Import Sorted Permutation DecimalString.
From stdpp Require Import gmap strings.
Import ListNotations.

Open Scope string_scope.
Open Scope Z_scope.
Open Scope list_scope.

(** ** JavaScript values and strings *)

Module JS.

Inductive value : Type :=
| JUndefined
| JNull
| JBool (b : bool)
| JNum (z : Z)
| JStr (s : string).

(** [ToBoolean]. *)
Definition truthy (v : value) : bool :=
  match v with
  | JUndefined => false
  | JNull => false
  | JBool b => b
  | JNum z => negb (z =? 0)
  | JStr s => negb (String.eqb s "")
  end.

(** [a || b]. *)
Definition or_else (a b : value) : value :=
  if truthy a then a else b.

(** [a && b]. *)
Definition and_then (a b : value) : value :=
  if truthy a then b else a.

(** [v.toString()].  On [undefined] and [null] the property access
    throws; every call site of the program guards the receiver with
    [||] or [&&], so these two cases are never reached (see
    [or_else_default_defined]).  A number is printed in decimal digits
    (from 10^21 on engines switch to exponent notation, which only adds
    the characters [e] and [+]). *)
Definition toString (v : value) : string :=
  match v with
  | JUndefined => "undefined"
  | JNull => "null"
  | JBool true => "true"
  | JBool false => "false"
  | JNum z => NilEmpty.string_of_int (Z.to_int z)
  | JStr s => s
  end.

Definition defined (v : value) : Prop :=
  v <> JUndefined /\ v <> JNull.

Definition upper_ascii (c : ascii) : ascii :=
  let n := nat_of_ascii c in
  if ((97 <=? n)%nat && (n <=? 122)%nat)%bool
  then ascii_of_nat (n - 32)
  else c.

Fixpoint toUpperCase (s : string) : string :=
  match s with
  | EmptyString => EmptyString
  | String c s' => String (upper_ascii c) (toUpperCase s')
  end.

(** [s.startsWith(sub)]. *)
Fixpoint startsWith (sub s : string) : bool :=
  match sub, s with
  | EmptyString, _ => true
  | String a sub', String b s' => Ascii.eqb a b && startsWith sub' s'
  | String _ _, EmptyString => false
  end.

(** [s.includes(sub)]: [sub] occurs in [s] at some position. *)
Fixpoint includes (sub s : string) : bool :=
  startsWith sub s ||
  match s with
  | EmptyString => false
  | String _ s' => includes sub s'
  end.

(** [c] is one of the characters of [s]. *)
Fixpoint has_char (c : ascii) (s : string) : bool :=
  match s with
  | EmptyString => false
  | String b s' => Ascii.eqb c b || has_char c s'
  end.

(** Specification-side notions: occurrence of a substring, and
    occurrence up to letter case. *)
Definition occurs (sub s : string) : Prop :=
  exists pre post, s = pre +:+ sub +:+ post.

Definition occurs_ci (sub s : string) : Prop :=
  exists pre mid post,
    s = pre +:+ mid +:+ post /\ toUpperCase mid = sub.

End JS.

Import JS.

(** ** Quality score *)

Definition getQualityScore (qualityLevel : value) : Z :=
  let normalized := toUpperCase (toString (or_else qualityLevel (JStr ""))) in
  if includes "QL0" normalized then 0
  else if includes "QL1" normalized then 1
  else if includes "QL2" normalized then 2
  else if includes "QL3" normalized then 3
  else 9.

(** The four recognised tags, by index. *)
Definition QL (i : Z) : string :=
  if i =? 0 then "QL0"
  else if i =? 1 then "QL1"
  else if i =? 2 then "QL2"
  else "QL3".

(** The label contains the tag of index [i] and no other tag. *)
Definition exactly_one_tag (s : string) (i : Z) : Prop :=
  0 <= i <= 3 /\ occurs_ci (QL i) s /\
  forall j, 0 <= j <= 3 -> j <> i -> ~ occurs_ci (QL j) s.

(** ** Ranking of search results *)

Module Ranker.

(** A JavaScript number as far as the ranking needs it: an integer
    (timestamps in milliseconds, score differences) or [NaN]. *)
Inductive number : Type :=
| Num (z : Z)
| NaN.

(** [a - b]. *)
Definition sub (a b : number) : number :=
  match a, b with
  | Num x, Num y => Num (x - y)
  | _, _ => NaN
  end.

Definition number_eqb (a b : number) : bool :=
  match a, b with
  | Num x, Num y => x =? y
  | NaN, NaN => true
  | _, _ => false
  end.

Definition TimeClip (t : number) : number :=
  match t with
  | Num z => if Z.abs z <=? 8640000000000000 then Num z else NaN
  | NaN => NaN
  end.

(** A dataset descriptor: the three fields the ranking reads, and
    [name] standing for the provider-specific remainder. *)
Record descriptor : Type := {
  qualityLevel : value;
  publicationDate : value;
  date : value;
  name : string
}.

(** [Array.prototype.sort] is specified by ECMAScript as a stable sort
    whose algorithm is left to the engine; a comparator result of [NaN]
    is read as [+0] ([SortCompare]).  It is modelled here by a stable
    insertion sort.  For a consistent comparator every stable sort
    yields the same array ([stable_sort_unique]), so the model is the
    program's array.  For an inconsistent comparator (a timestamp that
    is NaN) the order is implementation-defined: the model is then one
    admissible outcome, not the array of a given engine, and only what
    holds of every permutation of the input carries over.  [V8] below is
    the sort of one engine on such inputs. *)
Section Sort.
Context {A : Type}.
Variable comparefn : A -> A -> number.

Definition SortCompare (x y : A) : Z :=
  match comparefn x y with
  | Num v => v
  | NaN => 0
  end.

(** [x] may stand before [y]. *)
Definition precedes (x y : A) : Prop := SortCompare x y <= 0.

(** [x] and [y] compare as equal. *)
Definition tied (x y : A) : bool :=
  (SortCompare x y <=? 0) && (SortCompare y x <=? 0).

Fixpoint insert (x : A) (l : list A) : list A :=
  match l with
  | [] => [x]
  | y :: l' =>
      if SortCompare x y <=? 0 then x :: y :: l' else y :: insert x l'
  end.

Fixpoint Array_sort (l : list A) : list A :=
  match l with
  | [] => []
  | x :: l' => insert x (Array_sort l')
  end.
End Sort.

(** A descriptor with a quality label and a publication date, both
    strings, and no [date] field. *)
Definition dataset (quality published id : string) : descriptor :=
  {| qualityLevel := JStr quality;
     publicationDate := JStr published;
     date := JUndefined;
     name := id |}.

(** The event handed to [handleSearchComplete]:
    [event?.detail?.results || event?.results || []].  An array, even
    an empty one, is truthy. *)
Record detail : Type := { detail_results : option (list descriptor) }.

Record event : Type := {
  event_detail : option detail;
  event_results : option (list descriptor)
}.

(** [lidarControlRef.current]: [loadDataset] tells whether the control
    has that method. *)
Record control : Type := { loadDataset : bool }.

Inductive effect : Type :=
| ConsoleLog (msg : string) (results : list descriptor)
| LoadDataset (best : descriptor).

Section Ranking.
(** [Date.parse] of the engine: the time value of a date string, or
    [NaN] when the string is not a date. *)
Variable Date_parse : string -> number.

(** [new Date(v).getTime()]. *)
Definition getTime (v : value) : number :=
  match v with
  | JStr s => TimeClip (Date_parse s)
  | JNum z => TimeClip (Num z)
  | JBool b => Num (if b then 1 else 0)
  | JNull => Num 0
  | JUndefined => NaN
  end.

(** [new Date(d.publicationDate || d.date || 0).getTime()]. *)
Definition timestamp (d : descriptor) : number :=
  getTime (or_else (or_else (publicationDate d) (date d)) (JNum 0)).

(** The comparator passed to [sort]. *)
Definition comparator (a b : descriptor) : number :=
  let qualityDiff :=
    getQualityScore (qualityLevel a) - getQualityScore (qualityLevel b) in
  if negb (qualityDiff =? 0) then Num qualityDiff
  else
    let dateA := timestamp a in
    let dateB := timestamp b in
    sub dateB dateA.

(** [const sorted = [...results].sort(...)], [const best = sorted[0]]. *)
Definition sorted (results : list descriptor) : list descriptor :=
  Array_sort comparator results.

Definition best (results : list descriptor) : option descriptor :=
  head (sorted results).

Definition event_payload (ev : option event) : list descriptor :=
  match ev with
  | None => []
  | Some e =>
      match event_detail e with
      | Some {| detail_results := Some rs |} => rs
      | _ =>
          match event_results e with
          | Some rs => rs
          | None => []
          end
      end
  end.

(** Specification-side notions.  [score]: the QualityScore of a
    descriptor.  [dated]: the descriptor resolves to a timestamp that
    is a number.  [outranks a b]: [a] has the better quality, or the
    same quality and a timestamp at least as late.  [tie q t]: the
    descriptors with QualityScore [q] and resolved timestamp [t]. *)
Definition score (d : descriptor) : Z :=
  getQualityScore (qualityLevel d).

Definition dated (d : descriptor) : Prop :=
  exists t, timestamp d = Num t.

Definition outranks (a b : descriptor) : Prop :=
  score a < score b \/
  (score a = score b /\
   exists ta tb, timestamp a = Num ta /\ timestamp b = Num tb /\ tb <= ta).

Definition tie (q : Z) (t : number) (d : descriptor) : bool :=
  (score d =? q) && number_eqb (timestamp d) t.

Definition handleSearchComplete
    (lidarControl : option control) (ev : option event) : list effect :=
  let results := event_payload ev in
  let log := ConsoleLog "LiDAR search complete" results in
  if (length results =? 0)%nat then [log]
  else
    match best results, lidarControl with
    | Some b, Some {| loadDataset := true |} => [log; LoadDataset b]
    | _, _ => [log]
    end.
End Ranking.

(** A concrete [Date.parse] for the date-only forms of the ECMAScript
    date-time string format ([YYYY], [YYYY-MM], [YYYY-MM-DD], read as
    UTC midnight).  Every other string is reported as [NaN]; engines
    accept further, implementation-specific formats. *)
Definition digit (c : ascii) : option Z :=
  let n := Z.of_nat (nat_of_ascii c) in
  if ((48 <=? n) && (n <=? 57))%bool then Some (n - 48) else None.

Definition two_digits (a b : ascii) : option Z :=
  match digit a, digit b with
  | Some x, Some y => Some (10 * x + y)
  | _, _ => None
  end.

Definition four_digits (a b c d : ascii) : option Z :=
  match two_digits a b, two_digits c d with
  | Some x, Some y => Some (100 * x + y)
  | _, _ => None
  end.

Definition leap (y : Z) : bool :=
  ((y mod 4 =? 0) && (negb (y mod 100 =? 0) || (y mod 400 =? 0)))%bool.

Definition days_in_month (y m : Z) : Z :=
  if m =? 2 then (if leap y then 29 else 28)
  else if ((m =? 4) || (m =? 6) || (m =? 9) || (m =? 11))%bool then 30
  else 31.

(** Days from 1970-01-01 to the civil date [y]-[m]-[d]. *)
Definition days_from_civil (y m d : Z) : Z :=
  let y' := if m <=? 2 then y - 1 else y in
  let era := y' / 400 in
  let yoe := y' - era * 400 in
  let mp := if 2 <? m then m - 3 else m + 9 in
  let doy := (153 * mp + 2) / 5 + d - 1 in
  let doe := yoe * 365 + yoe / 4 - yoe / 100 + doy in
  era * 146097 + doe - 719468.

Definition msPerDay : Z := 86400000.

Definition make_date (y m d : Z) : number :=
  if ((1 <=? m) && (m <=? 12) && (1 <=? d) && (d <=? days_in_month y m))%bool
  then Num (days_from_civil y m d * msPerDay)
  else NaN.

Definition hyphen : ascii := "-"%char.

Definition Date_parse_iso (s : string) : number :=
  match s with
  | String y1 (String y2 (String y3 (String y4 rest))) =>
      match four_digits y1 y2 y3 y4 with
      | None => NaN
      | Some y =>
          match rest with
          | EmptyString => make_date y 1 1
          | String h1 (String m1 (String m2 rest')) =>
              if Ascii.eqb h1 hyphen then
                match two_digits m1 m2 with
                | None => NaN
                | Some m =>
                    match rest' with
                    | EmptyString => make_date y m 1
                    | String h2 (String d1 (String d2 EmptyString)) =>
                        if Ascii.eqb h2 hyphen then
                          match two_digits d1 d2 with
                          | Some d => make_date y m d
                          | None => NaN
                          end
                        else NaN
                    | _ => NaN
                    end
                end
              else NaN
          | _ => NaN
          end
      end
  | _ => NaN
  end.

End Ranker.

(** ** Styling of the point layers *)

Module Style.

(** A MapLibre style expression: a number, a string or an array. *)
#[warnings="-register-all"] Inductive expr : Type :=
| ENum (q : Q)
| EStr (s : string)
| EArr (l : list expr).

(** A layer of the map: its paint properties and its filter. *)
Record layer : Type := {
  layer_type : string;
  layer_paint : gmap string expr;
  layer_filter : option expr
}.

(** The rendered map, as far as styling goes: its layers by id. *)
Abbreviation mapState := (gmap string layer).

Definition getLayer (m : mapState) (layerId : string) : option layer :=
  m !! layerId.

(** A layer with one paint property overwritten. *)
Definition with_paint (name : string) (v : expr) (l : layer) : layer :=
  {| layer_type := layer_type l;
     layer_paint := <[name := v]> (layer_paint l);
     layer_filter := layer_filter l |}.

(** A layer with its filter overwritten. *)
Definition with_filter (f : expr) (l : layer) : layer :=
  {| layer_type := layer_type l;
     layer_paint := layer_paint l;
     layer_filter := Some f |}.

Definition setPaintProperty
    (layerId name : string) (v : expr) (m : mapState) : mapState :=
  alter (with_paint name v) layerId m.

Definition setFilter (layerId : string) (f : expr) (m : mapState) : mapState :=
  alter (with_filter f) layerId m.

(** [COLOR_RAMPS.elevation.ramp]. *)
Definition COLOR_RAMPS_elevation_ramp : list (list expr) :=
  [ [ENum 0; EStr "#0d47a1"];
    [ENum 1; EStr "#1976d2"];
    [ENum 2.5; EStr "#26c6da"];
    [ENum 3.5; EStr "#fdd835"];
    [ENum 5; EStr "#ef5350"] ].

(** [Array.prototype.flat] on an array of arrays. *)
Definition flat (l : list (list expr)) : list expr := concat l.

Definition get (attribute : string) : expr :=
  EArr [EStr "get"; EStr attribute].

Definition elevation_paint : expr :=
  let ramp := flat COLOR_RAMPS_elevation_ramp in
  EArr ([EStr "interpolate"; EArr [EStr "linear"]; get "Z"] ++ ramp).

Definition intensity_paint : expr :=
  EArr [EStr "interpolate"; EArr [EStr "linear"]; get "Intensity";
        ENum 0; EStr "#212121"; ENum 255; EStr "#f5f5f5"].

Definition classification_paint : expr :=
  EArr [EStr "match"; get "Classification";
        ENum 2; EStr "#4caf50";
        ENum 7; EStr "#1976d2";
        ENum 9; EStr "#ffb300";
        ENum 10; EStr "#ef5350";
        EStr "#9e9e9e"].

Definition rgb_paint : expr :=
  EArr [EStr "rgb"; get "Red"; get "Green"; get "Blue"].

(** The body of the [forEach] callback of [applyColorScheme]: a layer the
    map does not have is skipped; otherwise the branch of the scheme
    sets [point-color]; a scheme that matches no branch does nothing. *)
Definition colorLayer (scheme : string) (m : mapState) (layerId : string)
    : mapState :=
  match getLayer m layerId with
  | None => m
  | Some _ =>
      if String.eqb scheme "elevation" then
        setPaintProperty layerId "point-color" elevation_paint m
      else if String.eqb scheme "intensity" then
        setPaintProperty layerId "point-color" intensity_paint m
      else if String.eqb scheme "classification" then
        setPaintProperty layerId "point-color" classification_paint m
      else if String.eqb scheme "rgb" then
        setPaintProperty layerId "point-color" rgb_paint m
      else m
  end.

(** Specification side: the paint instruction of a scheme, [None] for a
    string outside the enumerated set. *)
Definition scheme_paint (scheme : string) : option expr :=
  if String.eqb scheme "elevation" then Some elevation_paint
  else if String.eqb scheme "intensity" then Some intensity_paint
  else if String.eqb scheme "classification" then Some classification_paint
  else if String.eqb scheme "rgb" then Some rgb_paint
  else None.

(** The enumerated schemes. *)
Definition recognized (scheme : string) : Prop :=
  In scheme ["elevation"; "intensity"; "classification"; "rgb"].

Definition applyColorScheme
    (lidarLayerIds : list string) (mapInstance : mapState) (scheme : string)
    : mapState :=
  fold_left (colorLayer scheme) lidarLayerIds mapInstance.

Definition seaLevelFilter (threshold : Q) : expr :=
  EArr [EStr ">="; get "Z"; ENum threshold].

(** The body of the [forEach] callback of [applySeaLevelFilter]. *)
Definition filterLayer (threshold : Q) (m : mapState) (layerId : string)
    : mapState :=
  match getLayer m layerId with
  | Some _ => setFilter layerId (seaLevelFilter threshold) m
  | None => m
  end.

Definition applySeaLevelFilter
    (lidarLayerIds : list string) (mapInstance : mapState) (threshold : Q)
    : mapState :=
  fold_left (filterLayer threshold) lidarLayerIds mapInstance.

(** *** Reading of the expressions by the renderer

    The renderer is an external library.  The two functions below give
    the style-specification meaning of the two expression forms the
    claims speak about: a [>=] filter on a numeric attribute and a
    [match] on a numeric attribute.  A point is its attributes. *)
Abbreviation point := (gmap string Q).

Definition eval_filter (f : expr) (p : point) : bool :=
  match f with
  | EArr [EStr op; EArr [EStr g; EStr attribute]; ENum t] =>
      if (String.eqb op ">=" && String.eqb g "get")%bool then
        match p !! attribute with
        | Some z => Qle_bool t z
        | None => false
        end
      else false
  | _ => false
  end.

Fixpoint match_arms (v : Q) (arms : list expr) : option string :=
  match arms with
  | [EStr fallback] => Some fallback
  | ENum label :: EStr out :: rest =>
      if Qeq_bool v label then Some out else match_arms v rest
  | _ => None
  end.

Definition eval_match (e : expr) (p : point) : option string :=
  match e with
  | EArr (EStr op :: EArr [EStr g; EStr attribute] :: arms) =>
      if (String.eqb op "match" && String.eqb g "get")%bool then
        match p !! attribute with
        | Some v => match_arms v arms
        | None => None
        end
      else None
  | _ => None
  end.

(** A point with elevation [z]; a point with classification code [c]. *)
Definition point_at (z : Q) : point := {[ "Z" := z ]}.

Definition point_of_class (c : Q) : point := {[ "Classification" := c ]}.

(** A map with two point layers, one of them already filtered, and an
    overlay layer. *)
Definition sample_layer (kind : string) (f : option expr) : layer :=
  {| layer_type := kind; layer_paint := ∅; layer_filter := f |}.

Definition sample_map : gmap string layer :=
  <[ "lidar-1" := sample_layer "circle" None ]>
  (<[ "lidar-2" := sample_layer "circle" (Some (EArr [EStr "has"; EStr "Z"])) ]>
  (<[ "noaa-slr-fill" := sample_layer "fill" None ]> ∅)).

(** The control points of an [interpolate] expression with linear
    interpolation over an attribute. *)
Fixpoint stops (l : list expr) : option (list (Q * string)) :=
  match l with
  | [] => Some []
  | ENum z :: EStr color :: rest =>
      match stops rest with
      | Some r => Some ((z, color) :: r)
      | None => None
      end
  | _ => None
  end.

Definition interpolate_linear (e : expr) : option (string * list (Q * string)) :=
  match e with
  | EArr (EStr op :: EArr [EStr kind] :: EArr [EStr g; EStr attribute] :: l) =>
      if (String.eqb op "interpolate" && String.eqb kind "linear"
          && String.eqb g "get")%bool then
        match stops l with
        | Some r => Some (attribute, r)
        | None => None
        end
      else None
  | _ => None
  end.

End Style.

(** ** The sea-level-rise overlay: Florida features *)

Module Overlay.

(** [feature.properties]: the two properties the filter reads. *)
Record properties : Type := {
  state : value;
  STATE : value
}.

Record feature : Type := {
  feature_properties : option properties;
  feature_id : string
}.

(** [feature.properties?.state] and [feature.properties?.STATE]. *)
Definition prop_state (f : feature) : value :=
  match feature_properties f with
  | Some p => state p
  | None => JUndefined
  end.

Definition prop_STATE (f : feature) : value :=
  match feature_properties f with
  | Some p => STATE p
  | None => JUndefined
  end.

(** The callback of [data.features?.filter(...)]; [Array.prototype.filter]
    keeps the element when the returned value is truthy. *)
Definition isFlorida (f : feature) : bool :=
  let st := or_else (prop_state f) (prop_STATE f) in
  truthy (and_then st (JBool (includes "FL" (toUpperCase (toString st))))).

(** [floridaFeatures || []], where [features] may be missing. *)
Definition floridaFeatures (features : option (list feature)) : list feature :=
  match features with
  | Some fs => List.filter isFlorida fs
  | None => []
  end.

(** Specification side: the string a property converts to, when the
    property exists, and whether that string, uppercased, contains FL. *)
Definition text_of (v : value) : option string :=
  match v with
  | JUndefined | JNull => None
  | _ => Some (toString v)
  end.

Definition mentions_FL (v : value) : Prop :=
  exists s, text_of v = Some s /\ occurs "FL" (toUpperCase s).

(** The state of a feature: its [state] property, or its [STATE]
    property when [state] is missing or falsy, mentions FL. *)
Definition in_florida (f : feature) : Prop :=
  mentions_FL (prop_state f) \/
  (truthy (prop_state f) = false /\ mentions_FL (prop_STATE f)).

(** A feature with the given [state] property and no [STATE] property. *)
Definition feature_of_state (st : value) (id : string) : feature :=
  {| feature_properties := Some {| state := st; STATE := JUndefined |};
     feature_id := id |}.

End Overlay.

Import Ranker Style Overlay.

(** ** The colour-scheme selector *)

Module Selector.

(** An entry of [COLOR_RAMPS]: its label and, for [elevation], its ramp. *)
Record rampEntry : Type := {
  ramp_label : string;
  ramp : option (list (list expr))
}.

(** [COLOR_RAMPS], in the order of its keys. *)
Definition COLOR_RAMPS : list (string * rampEntry) :=
  [ ("elevation", {| ramp_label := "Elevation (0-5m)";
                     ramp := Some COLOR_RAMPS_elevation_ramp |});
    ("intensity", {| ramp_label := "Intensity"; ramp := None |});
    ("classification", {| ramp_label := "Classification"; ramp := None |});
    ("rgb", {| ramp_label := "RGB"; ramp := None |}) ].

(** The [<option>] elements of the selector:
    [Object.entries(COLOR_RAMPS).map(([key, value]) => ...)], as pairs of
    the option's value and its text. *)
Definition schemeOptions : list (string * string) :=
  List.map (fun kv => (fst kv, ramp_label (snd kv))) COLOR_RAMPS.

(** The initial [colorScheme] and [seaLevel]. *)
Definition initialColorScheme : string := "elevation".

Definition initialSeaLevel : Q := 1.5.

End Selector.

(** ** The basemap *)

Module Basemap.

(** The three style constants, by name. *)
Inductive style : Type :=
| POSITRON_STYLE
| SATELLITE_STYLE
| LIDAR_ONLY_STYLE.

(** The [useMemo] that computes [baseStyle] from [basemapMode]. *)
Definition baseStyle (basemapMode : string) : style :=
  if String.eqb basemapMode "satellite" then SATELLITE_STYLE
  else if String.eqb basemapMode "lidar" then LIDAR_ONLY_STYLE
  else POSITRON_STYLE.

(** The updater passed to [setBasemapMode] by [handleToggleBasemap]. *)
Definition handleToggleBasemap (prev : string) : string :=
  if String.eqb prev "satellite" then "lidar" else "satellite".

(** The initial [basemapMode]. *)
Definition initialBasemapMode : string := "positron".

(** [n] clicks on the toggle button. *)
Definition toggles (n : nat) (mode : string) : string :=
  Nat.iter n handleToggleBasemap mode.

End Basemap.

(** ** The automatic search *)

Module Search.

(** [lidarControlRef.current] with all the methods the program probes. *)
Record lidarControl : Type := {
  has_searchByMapExtent : bool;
  has_search : bool;
  has_loadDataset : bool
}.

(** The same control as [handleSearchComplete] sees it. *)
Definition as_control (c : lidarControl) : control :=
  {| loadDataset := has_loadDataset c |}.





End Search.

(** ** The map instance: load completion and the sea-level-rise overlay *)

Module Viewer.

(** A source of the style: a GeoJSON feature collection, or a source of
    another type (the raster tiles of a basemap). *)
Inductive source : Type :=
| GeoJSON (features : list feature)
| OtherSource (type : string).

(** The map instance: its layers by id, the ids in drawing order (the
    order of [getStyle().layers]), its sources by id, and the source
    each layer draws from. *)
Record mapInstance : Type := {
  map_layers : gmap string layer;
  map_order : list string;
  map_sources : gmap string source;
  map_layer_source : gmap string string
}.

Definition with_layers (ls : gmap string layer) (m : mapInstance) : mapInstance :=
  {| map_layers := ls;
     map_order := map_order m;
     map_sources := map_sources m;
     map_layer_source := map_layer_source m |}.

(** [map.getSource(id)]. *)
Definition getSource (m : mapInstance) (id : string) : option source :=
  map_sources m !! id.

(** [map.addSource(id, source)].  The library refuses an id that is in
    use; the program checks with [getSource] first. *)
Definition addSource (id : string) (src : source) (m : mapInstance)
    : mapInstance :=
  match map_sources m !! id with
  | Some _ => m
  | None =>
      {| map_layers := map_layers m;
         map_order := map_order m;
         map_sources := <[id := src]> (map_sources m);
         map_layer_source := map_layer_source m |}
  end.

(** [map.addLayer({id, type, source, paint})]: the layer is put on top.
    The library refuses an id that is in use; the program checks with
    [getLayer] first. *)
Definition addLayer (id type src : string) (paint : gmap string expr)
    (m : mapInstance) : mapInstance :=
  match map_layers m !! id with
  | Some _ => m
  | None =>
      {| map_layers :=
           <[id := {| layer_type := type; layer_paint := paint;
                      layer_filter := None |}]> (map_layers m);
         map_order := map_order m ++ [id];
         map_sources := map_sources m;
         map_layer_source := <[id := src]> (map_layer_source m) |}
  end.

(** The [.then((data) => ...)] callback of the [load] handler, on the
    parsed response [data]; [features] is [data.features]. *)
Definition addSlrOverlay (features : option (list feature)) (m : mapInstance)
    : mapInstance :=
  let florida := floridaFeatures features in
  let m1 :=
    match getSource m "noaa-slr" with
    | None => addSource "noaa-slr" (GeoJSON florida) m
    | Some _ => m
    end in
  let m2 :=
    match getLayer (map_layers m1) "noaa-slr-fill" with
    | None =>
        addLayer "noaa-slr-fill" "fill" "noaa-slr"
          (<["fill-color" := EStr "#00bcd4"]>
             (<["fill-opacity" := ENum 0.18]> ∅)) m1
    | Some _ => m1
    end in
  match getLayer (map_layers m2) "noaa-slr-outline" with
  | None =>
      addLayer "noaa-slr-outline" "line" "noaa-slr"
        (<["line-color" := EStr "#00acc1"]>
           (<["line-width" := ENum 1.5]> ∅)) m2
  | Some _ => m2
  end.

(** What the console receives. *)
Inductive logEntry : Type :=
| ConsoleError (msg : string).

(** The promise chain of the [load] handler.  [response] is the outcome
    of [fetch(...).then(r => r.json())]: [None] when the request or the
    parsing fails, otherwise the [features] member of the parsed
    object.  A failure goes to [.catch], which only logs. *)
Definition onMapLoad (response : option (option (list feature)))
    (m : mapInstance) : mapInstance * list logEntry :=
  match response with
  | Some features => (addSlrOverlay features m, [])
  | None => (m, [ConsoleError "Failed to load NOAA SLR layer"])
  end.

(** [map.getStyle().layers]: the layers in drawing order, with their ids. *)
Definition getStyleLayers (m : mapInstance) : list (string * layer) :=
  omap (fun id => pair id <$> map_layers m !! id) (map_order m).

(** The fallback of [handleLoadComplete]:
    [layers.filter(l => l.type === "circle" && l.id.includes("lidar"))
           .map(l => l.id)]. *)
Definition isLidarCircle (l : string * layer) : bool :=
  String.eqb (layer_type (snd l)) "circle" && includes "lidar" (fst l).

Definition lidarCircleIds (m : mapInstance) : list string :=
  List.map fst (List.filter isLidarCircle (getStyleLayers m)).

(** The event handed to [handleLoadComplete]:
    [event?.detail?.layerIds || event?.layerIds || <fallback>]. *)
Record loadDetail : Type := { detail_layerIds : option (list string) }.

Record loadEvent : Type := {
  load_detail : option loadDetail;
  load_layerIds : option (list string)
}.

Definition event_layerIds (ev : option loadEvent) : option (list string) :=
  match ev with
  | None => None
  | Some e =>
      match load_detail e with
      | Some {| detail_layerIds := Some ids |} => Some ids
      | _ => load_layerIds e
      end
  end.

(** [handleLoadComplete].  The state it works on: [mapRef.current] (the
    map, if any) and [lidarLayerIdsRef.current]; [colorScheme] and
    [seaLevel] are the values of the current render.  The result is the
    new [lidarLayerIdsRef.current] and the map. *)
Definition handleLoadComplete
    (colorScheme : string) (seaLevel : Q)
    (mapRef : option mapInstance) (lidarLayerIds : list string)
    (ev : option loadEvent) : list string * option mapInstance :=
  match mapRef with
  | None => (lidarLayerIds, None)
  | Some map =>
      let layerIds :=
        match event_layerIds ev with
        | Some ids => ids
        | None => lidarCircleIds map
        end in
      let styled := applyColorScheme layerIds (map_layers map) colorScheme in
      let filtered := applySeaLevelFilter layerIds styled seaLevel in
      (layerIds, Some (with_layers filtered map))
  end.

(** The effects on [colorScheme] and on [seaLevel]: restyle the current
    layer set when the map exists. *)
Definition onColorSchemeChange
    (mapRef : option mapInstance) (lidarLayerIds : list string)
    (colorScheme : string) : option mapInstance :=
  match mapRef with
  | None => None
  | Some map =>
      Some (with_layers
              (applyColorScheme lidarLayerIds (map_layers map) colorScheme) map)
  end.

Definition onSeaLevelChange
    (mapRef : option mapInstance) (lidarLayerIds : list string)
    (seaLevel : Q) : option mapInstance :=
  match mapRef with
  | None => None
  | Some map =>
      Some (with_layers
              (applySeaLevelFilter lidarLayerIds (map_layers map) seaLevel) map)
  end.

(** Specification side: a well-formed map.  The drawing order lists each
    layer once, and every layer that draws from a source finds it. *)
Definition well_formed (m : mapInstance) : Prop :=
  NoDup (map_order m) /\
  (forall id, id ∈ map_order m <-> is_Some (map_layers m !! id)) /\
  (forall id src, map_layer_source m !! id = Some src ->
                  is_Some (map_sources m !! src)).

(** A map on the satellite basemap with two point layers loaded. *)
Definition sample_instance : mapInstance :=
  {| map_layers :=
       <["esri-tiles" := sample_layer "raster" None]>
       (<["usgs-lidar-1" := sample_layer "circle" None]>
       (<["usgs-lidar-2" := sample_layer "circle" None]> ∅));
     map_order := ["esri-tiles"; "usgs-lidar-1"; "usgs-lidar-2"];
     map_sources := <["esri" := OtherSource "raster"]> ∅;
     map_layer_source := <["esri-tiles" := "esri"]> ∅ |}.

End Viewer.

(** ** The sort of one engine

    [Ranker.Array_sort] stands for [Array.prototype.sort] wherever the
    comparator is consistent.  Where it is not, engines differ.  This is
    the sort of V8 (Chrome, Node) for an array shorter than 64 elements:
    TimSort treats such an array as a single run.  [CountAndMakeRun]
    takes the longest initial run, ascending or strictly descending (a
    descending run is reversed), and [BinaryInsertionSort] inserts the
    remaining elements one by one at the place a binary search finds.
    The comparator is read through [SortCompare] (NaN is [+0]). *)

Module V8.

Section Sort.
Context {A : Type}.
Variable comparefn : A -> A -> number.

(** The loop of [CountAndMakeRun] after its first two elements: the
    elements that continue the run, and the elements left over. *)
Fixpoint extendRun (isDescending : bool) (previousElement : A) (l : list A)
    : list A * list A :=
  match l with
  | [] => ([], [])
  | currentElement :: l' =>
      let order := SortCompare comparefn currentElement previousElement in
      if (if isDescending then 0 <=? order else order <? 0) then ([], l)
      else
        let (run, rest) := extendRun isDescending currentElement l' in
        (currentElement :: run, rest)
  end.

Definition CountAndMakeRun (l : list A) : list A * list A :=
  match l with
  | elementHigh :: elementLow :: l' =>
      let order := SortCompare comparefn elementLow elementHigh in
      let isDescending := order <? 0 in
      let (run, rest) := extendRun isDescending elementLow l' in
      let whole := elementHigh :: elementLow :: run in
      (if isDescending then rev whole else whole, rest)
  | _ => (l, [])
  end.

(** The binary search of [BinaryInsertionSort] for [pivot] in the sorted
    part: [while (left < right)], with [mid = left + ((right - left) >> 1)];
    [order < 0] moves [right] to [mid], otherwise [left] goes to
    [mid + 1].  [fuel] bounds the number of rounds. *)
Fixpoint insertionPoint (fuel : nat) (pivot : A) (sorted : list A)
    (left right : nat) : nat :=
  match fuel with
  | O => left
  | S fuel' =>
      if (left <? right)%nat then
        let mid := (left + (right - left) / 2)%nat in
        match sorted !! mid with
        | Some y =>
            if SortCompare comparefn pivot y <? 0
            then insertionPoint fuel' pivot sorted left mid
            else insertionPoint fuel' pivot sorted (S mid) right
        | None => left
        end
      else left
  end.

(** One round of [BinaryInsertionSort]: the elements from the insertion
    point on move one place to the right and [pivot] takes the place. *)
Definition insertPivot (sorted : list A) (pivot : A) : list A :=
  let left := insertionPoint (length sorted) pivot sorted 0 (length sorted) in
  firstn left sorted ++ pivot :: skipn left sorted.

Definition BinaryInsertionSort (run rest : list A) : list A :=
  fold_left insertPivot rest run.

(** The sort, for the arrays it is modelled for. *)
Definition ArrayTimSort (l : list A) : option (list A) :=
  if (length l <? 64)%nat then
    let (run, rest) := CountAndMakeRun l in
    Some (BinaryInsertionSort run rest)
  else None.

End Sort.

End V8.

(** Specification side: the opposite of a number ([-a]). *)
Definition negate (a : number) : number :=
  match a with
  | Num z => Num (- z)
  | NaN => NaN
  end.

(** The greatest magnitude of a time value. *)
Definition maxTime : Z := 8640000000000000.

(** The two overlay layers as the map stores them. *)
Definition slr_fill_layer : layer :=
  {| layer_type := "fill";
     layer_paint := <["fill-color" := EStr "#00bcd4"]>
                      (<["fill-opacity" := ENum 0.18]> ∅);
     layer_filter := None |}.

Definition slr_outline_layer : layer :=
  {| layer_type := "line";
     layer_paint := <["line-color" := EStr "#00acc1"]>
                      (<["line-width" := ENum 1.5]> ∅);
     layer_filter := None |}.

Import Selector Basemap Search Viewer.

(** * Properties *)

(** ** Strings: [includes] finds exactly the occurrences *)

Section StringFacts.

Lemma append_nil (b : string) : "" +:+ b = b.
Proof. reflexivity. Qed.

Lemma append_cons (c : ascii) (a b : string) :
  String c a +:+ b = String c (a +:+ b).
Proof. reflexivity. Qed.

Lemma startsWith_split (sub s : string) :
  startsWith sub s = true <-> exists post, s = sub +:+ post.
Proof.
  revert s. induction sub as [|a sub IH]; intros s.
  - split; [intros _; now exists s | reflexivity].
  - destruct s as [|b s]; simpl.
    + split; [discriminate | intros [post H]; discriminate].
    + rewrite andb_true_iff, Ascii.eqb_eq, IH. split.
      * intros [-> [post ->]]. now exists post.
      * intros [post H]. rewrite append_cons in H.
        injection H as -> ->. split; [reflexivity | now exists post].
Qed.

Lemma includes_occurs (sub s : string) :
  includes sub s = true <-> occurs sub s.
Proof.
  unfold occurs. induction s as [|c s IH]; simpl.
  - rewrite orb_false_r, startsWith_split. split.
    + intros [post H]. now exists "", post.
    + intros [[|x pre] [post H]]; [now exists post | discriminate].
  - rewrite orb_true_iff, startsWith_split, IH. split.
    + intros [[post H] | (pre & post & H)].
      * now exists "", post.
      * exists (String c pre), post. now rewrite append_cons, H.
    + intros ([|x pre] & post & H).
      * left. now exists post.
      * right. rewrite append_cons in H. injection H as _ H.
        now exists pre, post.
Qed.

Lemma toUpperCase_app (a b : string) :
  toUpperCase (a +:+ b) = toUpperCase a +:+ toUpperCase b.
Proof.
  induction a as [|x a IH]; [reflexivity |].
  change (String (upper_ascii x) (toUpperCase (a +:+ b))
          = String (upper_ascii x) (toUpperCase a +:+ toUpperCase b)).
  now f_equal.
Qed.

Lemma toUpperCase_split (s a b : string) :
  toUpperCase s = a +:+ b ->
  exists a' b', s = a' +:+ b' /\ toUpperCase a' = a /\ toUpperCase b' = b.
Proof.
  revert s. induction a as [|x a IH]; intros s H.
  - now exists "", s.
  - destruct s as [|c s]; [discriminate |].
    rewrite append_cons in H. simpl in H. injection H as Hc Hs.
    destruct (IH _ Hs) as (a' & b' & -> & Ha & Hb).
    exists (String c a'), b'. simpl. now rewrite Hc, Ha.
Qed.

Lemma includes_upper_occurs_ci (sub s : string) :
  includes sub (toUpperCase s) = true <-> occurs_ci sub s.
Proof.
  rewrite includes_occurs. unfold occurs, occurs_ci. split.
  - intros (pre & post & H).
    destruct (toUpperCase_split _ _ _ H) as (p & r & -> & Hp & Hr).
    destruct (toUpperCase_split _ _ _ Hr) as (m & q & -> & Hm & Hq).
    now exists p, m, q.
  - intros (pre & mid & post & -> & Hm).
    exists (toUpperCase pre), (toUpperCase post).
    now rewrite !toUpperCase_app, Hm.
Qed.

Lemma includes_upper_false (sub s : string) :
  includes sub (toUpperCase s) = false <-> ~ occurs_ci sub s.
Proof.
  rewrite <- includes_upper_occurs_ci.
  destruct (includes sub (toUpperCase s)); split; congruence.
Qed.

End StringFacts.

(** ** Quality score *)

Section QualityScore.

Lemma or_else_default_defined (v d : value) :
  defined d -> defined (or_else v d).
Proof.
  unfold or_else. destruct (truthy v) eqn:Hv; [|trivial].
  intros _. split; intros ->; discriminate.
Qed.

Lemma includes_no_head (c : ascii) (r s : string) :
  has_char c s = false -> includes (String c r) s = false.
Proof.
  induction s as [|b s IH]; simpl; [reflexivity |].
  intros H. apply orb_false_iff in H as [Hb Hs].
  now rewrite Hb, (IH Hs).
Qed.

Lemma has_char_upper_uint (c : ascii) (d : Decimal.uint) :
  has_char c "0123456789" = false ->
  has_char c (toUpperCase (NilEmpty.string_of_uint d)) = false.
Proof.
  intros Hc. simpl in Hc. repeat (apply orb_false_iff in Hc as [? Hc]).
  induction d; simpl; trivial;
    match goal with
    | H : Ascii.eqb c ?x = false |- (Ascii.eqb c ?y || _)%bool = false =>
        change y with x; rewrite H; assumption
    end.
Qed.

Lemma has_char_upper_num (c : ascii) (z : Z) :
  has_char c "-0123456789" = false ->
  has_char c (toUpperCase (toString (JNum z))) = false.
Proof.
  intros Hc. simpl in Hc. apply orb_false_iff in Hc as [Hm Hc].
  assert (Hd : has_char c "0123456789" = false) by exact Hc.
  unfold toString. destruct (Z.to_int z) as [d|d]; simpl.
  - now apply has_char_upper_uint.
  - change (upper_ascii "-") with "-"%char.
    rewrite Hm. now apply has_char_upper_uint.
Qed.

(** The text the score is computed from. *)
Lemma label_str (s : string) : toString (or_else (JStr s) (JStr "")) = s.
Proof.
  unfold or_else. simpl. destruct (String.eqb s "") eqn:E; [|reflexivity].
  apply String.eqb_eq in E. now subst.
Qed.

Lemma score_by_first_match (v : value) :
  let n := toString (or_else v (JStr "")) in
  (occurs_ci "QL0" n /\ getQualityScore v = 0) \/
  (~ occurs_ci "QL0" n /\ occurs_ci "QL1" n /\ getQualityScore v = 1) \/
  (~ occurs_ci "QL0" n /\ ~ occurs_ci "QL1" n /\ occurs_ci "QL2" n
   /\ getQualityScore v = 2) \/
  (~ occurs_ci "QL0" n /\ ~ occurs_ci "QL1" n /\ ~ occurs_ci "QL2" n
   /\ occurs_ci "QL3" n /\ getQualityScore v = 3) \/
  (~ occurs_ci "QL0" n /\ ~ occurs_ci "QL1" n /\ ~ occurs_ci "QL2" n
   /\ ~ occurs_ci "QL3" n /\ getQualityScore v = 9).
Proof.
  intros n. unfold getQualityScore. fold n.
  destruct (includes "QL0" (toUpperCase n)) eqn:H0;
    [apply includes_upper_occurs_ci in H0; tauto
    | apply includes_upper_false in H0].
  destruct (includes "QL1" (toUpperCase n)) eqn:H1;
    [apply includes_upper_occurs_ci in H1; tauto
    | apply includes_upper_false in H1].
  destruct (includes "QL2" (toUpperCase n)) eqn:H2;
    [apply includes_upper_occurs_ci in H2; tauto
    | apply includes_upper_false in H2].
  destruct (includes "QL3" (toUpperCase n)) eqn:H3;
    [apply includes_upper_occurs_ci in H3; tauto
    | apply includes_upper_false in H3].
  tauto.
Qed.

Lemma score_range (v : value) :
  In (getQualityScore v) [0; 1; 2; 3; 9].
Proof.
  destruct (score_by_first_match v) as [H|[H|[H|[H|H]]]];
    simpl; intuition congruence.
Qed.

Lemma QL_cases (i : Z) :
  0 <= i <= 3 ->
  (i = 0 /\ QL i = "QL0") \/ (i = 1 /\ QL i = "QL1") \/
  (i = 2 /\ QL i = "QL2") \/ (i = 3 /\ QL i = "QL3").
Proof.
  intros H.
  assert (i = 0 \/ i = 1 \/ i = 2 \/ i = 3) as [-> | [-> | [-> | ->]]] by lia;
    unfold QL; simpl; tauto.
Qed.

(** The lowest-numbered tag present decides the score. *)
Lemma score_lowest_tag (s : string) (i : Z) :
  0 <= i <= 3 ->
  occurs_ci (QL i) s ->
  (forall j, 0 <= j < i -> ~ occurs_ci (QL j) s) ->
  getQualityScore (JStr s) = i.
Proof.
  intros Hi Hocc Hlow.
  pose proof (score_by_first_match (JStr s)) as H.
  rewrite label_str in H. cbv zeta in H.
  assert (L0 : 0 < i -> ~ occurs_ci "QL0" s) by (intros; apply (Hlow 0); lia).
  assert (L1 : 1 < i -> ~ occurs_ci "QL1" s) by (intros; apply (Hlow 1); lia).
  assert (L2 : 2 < i -> ~ occurs_ci "QL2" s) by (intros; apply (Hlow 2); lia).
  destruct (QL_cases i Hi) as [[-> E] | [[-> E] | [[-> E] | [-> E]]]];
    rewrite E in Hocc;
    repeat match goal with
           | L : ?a < ?b -> _ |- _ =>
               first [ assert (a < b) as X by lia; specialize (L X); clear X
                     | clear L ]
           end;
    intuition congruence.
Qed.

(** An input that is not a string never contains the letter [Q]. *)
Lemma nonstring_no_Q (v : value) (r : string) :
  (forall s, v <> JStr s) ->
  includes (String "Q" r) (toUpperCase (toString (or_else v (JStr "")))) = false.
Proof.
  intros Hv. destruct v as [| |[|]|z|s]; try reflexivity.
  - unfold or_else. simpl. destruct (z =? 0); [reflexivity |].
    apply includes_no_head, has_char_upper_num. reflexivity.
  - now destruct (Hv s).
Qed.

(** A label without any tag, and every input that is not a string, scores 9. *)
Lemma score_no_tag (v : value) :
  (forall s i, v = JStr s -> 0 <= i <= 3 -> ~ occurs_ci (QL i) s) ->
  getQualityScore v = 9.
Proof.
  intros H. destruct v as [| |b|z|s].
  1-4: unfold getQualityScore; now rewrite !nonstring_no_Q.
  pose proof (score_by_first_match (JStr s)) as K.
  rewrite label_str in K. cbv zeta in K.
  pose proof (H s 0 eq_refl ltac:(lia)) as K0.
  pose proof (H s 1 eq_refl ltac:(lia)) as K1.
  pose proof (H s 2 eq_refl ltac:(lia)) as K2.
  pose proof (H s 3 eq_refl ltac:(lia)) as K3.
  change (QL 0) with "QL0" in K0. change (QL 1) with "QL1" in K1.
  change (QL 2) with "QL2" in K2. change (QL 3) with "QL3" in K3.
  tauto.
Qed.

Ltac tag_present := apply includes_upper_occurs_ci; reflexivity.
Ltac tag_absent := apply includes_upper_false; reflexivity.

Lemma QL10_has_QL1 (s : string) : occurs_ci "QL10" s -> occurs_ci "QL1" s.
Proof.
  intros H. apply includes_upper_occurs_ci, includes_occurs in H.
  destruct H as (pre & post & H).
  apply includes_upper_occurs_ci, includes_occurs.
  exists pre, ("0" +:+ post). rewrite H.
  f_equal.
Qed.

(** C2, as stated, fails: the label ["QL1/QL2"] does not contain exactly
    one of the four tags, so it is one of the "other" inputs, and its
    score is 1, not 9. *)
Lemma score_two_tags_not_9 :
  (~ exists i, exactly_one_tag "QL1/QL2" i) /\
  getQualityScore (JStr "QL1/QL2") = 1 /\
  getQualityScore (JStr "QL1/QL2") <> 9.
Proof.
  split; [|split; [reflexivity | discriminate]].
  intros [i (Hi & _ & Hn)].
  destruct (Z.eq_dec i 1) as [->|Hne].
  - apply (Hn 2); [lia | lia | tag_present].
  - apply (Hn 1); [lia | congruence | tag_present].
Qed.

(** C2, amended: a label that contains exactly one of the tags QL0..QL3,
    in any letter case and with any surrounding text, scores the index
    of that tag; an input that contains none of them scores 9, and so
    does every input that is not a string: the empty string, an absent
    ([undefined]) or [null] label, a boolean, a number.  (Labels with
    several tags are not covered here.) *)
Theorem score_one_tag_or_none :
  (forall s i, exactly_one_tag s i -> getQualityScore (JStr s) = i) /\
  (forall v,
      (forall s i, v = JStr s -> 0 <= i <= 3 -> ~ occurs_ci (QL i) s) ->
      getQualityScore v = 9) /\
  getQualityScore (JStr "") = 9 /\
  getQualityScore JUndefined = 9.
Proof.
  split; [|split; [exact score_no_tag | split; reflexivity]].
  intros s i (Hi & Ho & Hn).
  apply score_lowest_tag; trivial.
  intros j Hj. apply Hn; lia.
Qed.

Lemma score_one_tag_or_none_witness :
  getQualityScore (JStr "usgs ql2 2019") = 2 /\
  getQualityScore (JStr "lidar") = 9.
Proof.
  split.
  - apply (proj1 score_one_tag_or_none "usgs ql2 2019" 2).
    split; [lia | split; [tag_present |]].
    intros j Hj Hne.
    assert (j = 0 \/ j = 1 \/ j = 3) as [-> | [-> | ->]] by lia; tag_absent.
  - apply (proj1 (proj2 score_one_tag_or_none) (JStr "lidar")).
    intros s i E Hi. injection E as <-.
    assert (i = 0 \/ i = 1 \/ i = 2 \/ i = 3) as [-> | [-> | [-> | ->]]] by lia;
      tag_absent.
Defined.

(** C10: when a label contains several of the tags, the score is the
    index of the lowest-numbered tag present, because the tags are tried
    in the order QL0, QL1, QL2, QL3.  A label containing ["QL10"]
    contains ["QL1"]: it scores 1 unless QL0 is present too (and never
    9); the label ["QL10"] itself scores 1.  A label containing both QL3
    and QL0 scores 0. *)
Theorem score_lowest_tag_present :
  (forall s i,
      0 <= i <= 3 ->
      occurs_ci (QL i) s ->
      (forall j, 0 <= j < i -> ~ occurs_ci (QL j) s) ->
      getQualityScore (JStr s) = i) /\
  (forall s,
      occurs_ci "QL10" s -> ~ occurs_ci "QL0" s ->
      getQualityScore (JStr s) = 1) /\
  (forall s, occurs_ci "QL10" s -> getQualityScore (JStr s) <> 9) /\
  getQualityScore (JStr "QL10") = 1 /\
  (forall s,
      occurs_ci "QL3" s -> occurs_ci "QL0" s ->
      getQualityScore (JStr s) = 0).
Proof.
  split; [exact score_lowest_tag |].
  split; [|split; [|split; [reflexivity |]]].
  - intros s H10 H0. apply (score_lowest_tag s 1); [lia | |].
    + now apply QL10_has_QL1.
    + intros j Hj. assert (j = 0) as -> by lia. exact H0.
  - intros s H10. apply QL10_has_QL1 in H10.
    pose proof (score_by_first_match (JStr s)) as K.
    rewrite label_str in K. cbv zeta in K.
    intros E. rewrite E in K. intuition congruence.
  - intros s _ H0. apply (score_lowest_tag s 0); [lia | exact H0 |].
    intros j Hj. lia.
Qed.

Lemma score_lowest_tag_present_witness :
  getQualityScore (JStr "ql3 reprocessed as QL1") = 1 /\
  getQualityScore (JStr "FL_QL10_2018") = 1 /\
  getQualityScore (JStr "QL3 (was ql0)") = 0.
Proof.
  split; [|split].
  - apply (proj1 score_lowest_tag_present "ql3 reprocessed as QL1" 1);
      [lia | tag_present |].
    intros j Hj. assert (j = 0) as -> by lia. tag_absent.
  - apply (proj1 (proj2 score_lowest_tag_present) "FL_QL10_2018");
      [tag_present | tag_absent].
  - apply (proj2 (proj2 (proj2 (proj2 score_lowest_tag_present)))
             "QL3 (was ql0)"); tag_present.
Defined.

End QualityScore.

(** ** The sort: permutation, order, stability *)

Section SortFacts.
Context {A : Type}.
Variable comparefn : A -> A -> number.

Local Abbreviation le := (precedes comparefn).

Lemma insert_perm (x : A) (l : list A) :
  Permutation (insert comparefn x l) (x :: l).
Proof.
  induction l as [|y l IH]; simpl; [reflexivity |].
  destruct (SortCompare comparefn x y <=? 0); [reflexivity |].
  rewrite IH. apply perm_swap.
Qed.

Lemma Array_sort_perm (l : list A) :
  Permutation (Array_sort comparefn l) l.
Proof.
  induction l as [|x l IH]; simpl; [reflexivity |].
  rewrite insert_perm. now constructor.
Qed.

Lemma Array_sort_In (l : list A) (x : A) :
  In x (Array_sort comparefn l) <-> In x l.
Proof.
  split; apply Permutation_in;
    [apply Array_sort_perm | symmetry; apply Array_sort_perm].
Qed.

Lemma Array_sort_length (l : list A) :
  length (Array_sort comparefn l) = length l.
Proof. apply Permutation_length, Array_sort_perm. Qed.

(** Stability: the elements of a class whose members may stand before
    one another keep their input order. *)
Lemma insert_filter (P : A -> bool) (x : A) (l : list A) :
  (forall y, In y l -> P x = true -> P y = true -> le x y) ->
  List.filter P (insert comparefn x l) = List.filter P (x :: l).
Proof.
  induction l as [|y l IH]; intros H; [reflexivity |].
  simpl. destruct (SortCompare comparefn x y <=? 0) eqn:E; [reflexivity |].
  apply Z.leb_gt in E. simpl.
  rewrite IH by (intros z Hz; apply H; now right).
  simpl. destruct (P x) eqn:Px; [|reflexivity].
  destruct (P y) eqn:Py; [|reflexivity].
  exfalso. specialize (H y (or_introl eq_refl) eq_refl Py).
  unfold precedes in H. lia.
Qed.

Lemma Array_sort_stable_in (P : A -> bool) (l : list A) :
  (forall x y, In x l -> In y l -> P x = true -> P y = true -> le x y) ->
  List.filter P (Array_sort comparefn l) = List.filter P l.
Proof.
  induction l as [|x l IH]; intros H; [reflexivity |].
  simpl. rewrite insert_filter.
  - simpl. rewrite IH; [reflexivity |].
    intros a b Ha Hb. apply H; now right.
  - intros y Hy. apply H; [now left |].
    right. now apply (proj1 (Array_sort_In l y)).
Qed.

Lemma Array_sort_stable (P : A -> bool) (l : list A) :
  (forall x y, P x = true -> P y = true -> le x y) ->
  List.filter P (Array_sort comparefn l) = List.filter P l.
Proof. intros H. apply Array_sort_stable_in. intros x y _ _. apply H. Qed.

Lemma filter_split (P : A -> bool) (l u v : list A) (a : A) :
  List.filter P l = u ++ a :: v ->
  exists l1 l2, l = l1 ++ a :: l2 /\ List.filter P l1 = u /\ List.filter P l2 = v.
Proof.
  revert u. induction l as [|x l IH]; intros u H; simpl in H.
  - now destruct u.
  - destruct (P x) eqn:Px.
    + destruct u as [|y u]; simpl in H; injection H as Hx H.
      * exists [], l. now rewrite Hx, H.
      * destruct (IH u H) as (l1 & l2 & -> & H1 & H2).
        exists (x :: l1), l2. simpl. now rewrite Px, H1, Hx.
    + destruct (IH u H) as (l1 & l2 & -> & H1 & H2).
      exists (x :: l1), l2. simpl. now rewrite Px.
Qed.

(** Two elements of such a class keep their relative position. *)
Lemma Array_sort_stable_pair (P : A -> bool) (a b : A) (l1 l2 l3 : list A) :
  (forall x y, P x = true -> P y = true -> le x y) ->
  P a = true -> P b = true ->
  exists r1 r2 r3,
    Array_sort comparefn (l1 ++ a :: l2 ++ b :: l3) = r1 ++ a :: r2 ++ b :: r3.
Proof.
  intros H Pa Pb.
  pose proof (Array_sort_stable P (l1 ++ a :: l2 ++ b :: l3) H) as E.
  rewrite List.filter_app in E. simpl in E. rewrite Pa in E.
  rewrite List.filter_app in E. simpl in E. rewrite Pb in E.
  destruct (filter_split _ _ _ _ _ E) as (r1 & rest & -> & _ & E').
  destruct (filter_split _ _ _ _ _ E') as (r2 & r3 & -> & _ & _).
  now exists r1, r2, r3.
Qed.

(** Order: on a domain where the comparator is total and transitive,
    the output is sorted. *)
Variable dom : A -> Prop.
Hypothesis le_total : forall x y, dom x -> dom y -> le x y \/ le y x.
Hypothesis le_trans :
  forall x y z, dom x -> dom y -> dom z -> le x y -> le y z -> le x z.

Lemma insert_sorted (x : A) (l : list A) :
  dom x -> Forall dom l ->
  StronglySorted le l -> StronglySorted le (insert comparefn x l).
Proof.
  intros Dx. induction l as [|y l IH]; intros Dl Hs; simpl.
  - repeat constructor.
  - inversion Dl as [|? ? Dy Dl']; subst.
    inversion Hs as [|? ? Hs' Hy]; subst.
    destruct (SortCompare comparefn x y <=? 0) eqn:E.
    + apply Z.leb_le in E. constructor; [exact Hs |].
      constructor; [exact E |].
      rewrite List.Forall_forall in Hy, Dl' |- *.
      intros z Hz. apply (le_trans x y z); auto.
    + apply Z.leb_gt in E. constructor; [now apply IH |].
      assert (Hyx : le y x).
      { destruct (le_total x y Dx Dy) as [K|K]; [|exact K].
        unfold precedes in K. lia. }
      rewrite List.Forall_forall in Hy |- *.
      intros z Hz. apply (Permutation_in _ (insert_perm x l)) in Hz.
      destruct Hz as [<-|Hz]; auto.
Qed.

Lemma Array_sort_sorted (l : list A) :
  Forall dom l -> StronglySorted le (Array_sort comparefn l).
Proof.
  induction l as [|x l IH]; intros Dl; simpl; [constructor |].
  inversion Dl as [|? ? Dx Dl']; subst.
  apply insert_sorted; [exact Dx | | now apply IH].
  rewrite List.Forall_forall in Dl' |- *.
  intros z Hz. apply (proj1 (Array_sort_In _ _)) in Hz. auto.
Qed.

Lemma Array_sort_order (l l1 l2 : list A) (x y : A) :
  Forall dom l ->
  Array_sort comparefn l = l1 ++ x :: l2 -> In y l2 -> le x y.
Proof.
  intros Dl E Hy. pose proof (Array_sort_sorted l Dl) as Hs.
  rewrite E in Hs. clear E.
  induction l1 as [|z l1 IH]; simpl in Hs.
  - inversion Hs as [|? ? _ Hx]; subst.
    rewrite List.Forall_forall in Hx. auto.
  - inversion Hs; subst. auto.
Qed.

(** Two sorted arrangements of the same elements that agree on every
    class of ties are equal. *)
Lemma sorted_stable_eq (l1 l2 : list A) :
  Forall dom l1 -> Permutation l1 l2 ->
  StronglySorted le l1 -> StronglySorted le l2 ->
  (forall c, In c l1 ->
             List.filter (tied comparefn c) l1 = List.filter (tied comparefn c) l2) ->
  l1 = l2.
Proof.
  revert l2. induction l1 as [|a l1 IH]; intros l2 D Hp S1 S2 Hf.
  - now apply Permutation_nil in Hp.
  - destruct l2 as [|b l2];
      [apply Permutation_sym, Permutation_nil in Hp; discriminate |].
    inversion D as [|? ? Da D1]; subst.
    inversion S1 as [|? ? S1' Ha]; subst.
    inversion S2 as [|? ? S2' Hb]; subst.
    rewrite List.Forall_forall in Ha, Hb, D1.
    assert (Hab : le a b).
    { assert (In b (a :: l1)) as [->|Hin]
        by (apply (Permutation_in _ (Permutation_sym Hp)); now left).
      - destruct (le_total b b Da Da); assumption.
      - auto. }
    assert (Hba : le b a).
    { assert (In a (b :: l2)) as [->|Hin]
        by (apply (Permutation_in _ Hp); now left).
      - destruct (le_total a a Da Da); assumption.
      - auto. }
    assert (Haa : tied comparefn a a = true).
    { unfold tied. destruct (le_total a a Da Da) as [K|K];
        unfold precedes in K; apply Z.leb_le in K; now rewrite K. }
    assert (Tab : tied comparefn a b = true).
    { unfold tied. unfold precedes in Hab, Hba.
      apply Z.leb_le in Hab, Hba. now rewrite Hab, Hba. }
    pose proof (Hf a (or_introl eq_refl)) as E. simpl in E.
    rewrite Haa, Tab in E. injection E as <- _.
    f_equal. apply IH; trivial.
    + now rewrite List.Forall_forall.
    + now apply Permutation_cons_inv in Hp.
    + intros c Hc. specialize (Hf c (or_intror Hc)). simpl in Hf.
      destruct (tied comparefn c a); [now injection Hf | exact Hf].
Qed.

(** The model is the only stable sort: a sorted arrangement of the input
    that keeps every class of ties in input order is the output of
    [Array_sort]. *)
Lemma stable_sort_unique (l l' : list A) :
  Forall dom l -> Permutation l' l -> StronglySorted le l' ->
  (forall c, In c l ->
             List.filter (tied comparefn c) l' = List.filter (tied comparefn c) l) ->
  l' = Array_sort comparefn l.
Proof.
  intros D Hp Hs Hf.
  assert (D' : Forall dom l')
    by (rewrite List.Forall_forall in D |- *; intros x Hx;
        apply D, (Permutation_in _ Hp Hx)).
  apply sorted_stable_eq; trivial.
  - rewrite Hp. symmetry. apply Array_sort_perm.
  - now apply Array_sort_sorted.
  - intros c Hc. apply (Permutation_in _ Hp) in Hc.
    rewrite (Hf c Hc). symmetry. apply Array_sort_stable_in.
    intros x y Hx Hy Tx Ty. unfold tied in Tx, Ty.
    apply andb_true_iff in Tx as [Tx1 Tx2]. apply andb_true_iff in Ty as [Ty1 Ty2].
    apply Z.leb_le in Tx1, Tx2, Ty1, Ty2.
    rewrite List.Forall_forall in D.
    apply (le_trans x c y); auto.
Qed.

Lemma Array_sort_head (l : list A) :
  l <> [] -> Forall dom l ->
  exists b, head (Array_sort comparefn l) = Some b /\ In b l /\
            forall d, In d l -> le b d \/ d = b.
Proof.
  intros Hne Dl. pose proof (Array_sort_sorted l Dl) as Hs.
  destruct (Array_sort comparefn l) as [|b r] eqn:E.
  - apply (f_equal (@length A)) in E. rewrite Array_sort_length in E.
    destruct l; [congruence | discriminate].
  - exists b. split; [reflexivity |].
    assert (Hin : forall d, In d l <-> In d (b :: r))
      by (intros d; rewrite <- E; symmetry; apply Array_sort_In).
    split; [apply Hin; now left |].
    intros d Hd. apply (proj1 (Hin d)) in Hd. destruct Hd as [->|Hd]; [now right |].
    left. inversion Hs as [|? ? _ Hb]; subst.
    rewrite List.Forall_forall in Hb. auto.
Qed.

End SortFacts.

(** ** The engine's sort reads the comparator on the elements only *)

Section EngineSortFacts.
Context {A : Type}.
Variables comparefn comparefn' : A -> A -> number.
Variable among : A -> Prop.
Hypothesis agree :
  forall a b, among a -> among b ->
              SortCompare comparefn a b = SortCompare comparefn' a b.

Lemma extendRun_agree (isDescending : bool) (previous : A) (l : list A) :
  among previous -> Forall among l ->
  V8.extendRun comparefn isDescending previous l
    = V8.extendRun comparefn' isDescending previous l.
Proof.
  revert previous. induction l as [|x l IH]; intros previous Hp Hl;
    [reflexivity |].
  inversion Hl as [|? ? Hx Hl']; subst. simpl.
  rewrite (agree x previous Hx Hp), (IH x Hx Hl'). reflexivity.
Qed.

Lemma extendRun_among (isDescending : bool) (previous : A) (l : list A) :
  Forall among l ->
  Forall among (fst (V8.extendRun comparefn isDescending previous l)) /\
  Forall among (snd (V8.extendRun comparefn isDescending previous l)).
Proof.
  revert previous. induction l as [|x l IH]; intros previous Hl; simpl.
  - split; constructor.
  - inversion Hl as [|? ? Hx Hl']; subst.
    destruct (if isDescending then _ else _); simpl; [split; [constructor | exact Hl] |].
    destruct (IH x Hl') as [H1 H2].
    destruct (V8.extendRun comparefn isDescending x l) as [run rest]. simpl in *.
    split; [now constructor | exact H2].
Qed.

Lemma CountAndMakeRun_agree (l : list A) :
  Forall among l ->
  V8.CountAndMakeRun comparefn l = V8.CountAndMakeRun comparefn' l.
Proof.
  intros Hl. destruct l as [|x [|y l]]; try reflexivity.
  inversion Hl as [|? ? Hx Hl']; subst.
  inversion Hl' as [|? ? Hy Hl'']; subst.
  unfold V8.CountAndMakeRun.
  now rewrite (agree y x Hy Hx), (extendRun_agree _ y l Hy Hl'').
Qed.

Lemma CountAndMakeRun_among (l : list A) :
  Forall among l ->
  Forall among (fst (V8.CountAndMakeRun comparefn l)) /\
  Forall among (snd (V8.CountAndMakeRun comparefn l)).
Proof.
  intros Hl. destruct l as [|x [|y l]]; simpl;
    try (split; [exact Hl | constructor]).
  inversion Hl as [|? ? Hx Hl']; subst.
  inversion Hl' as [|? ? Hy Hl'']; subst.
  destruct (extendRun_among (SortCompare comparefn y x <? 0) y l Hl'')
    as [H1 H2].
  destruct (V8.extendRun comparefn _ y l) as [run rest]. simpl in *.
  split; [|exact H2].
  assert (W : Forall among (x :: y :: run)) by (repeat constructor; trivial).
  destruct (SortCompare comparefn y x <? 0); [|exact W].
  rewrite List.Forall_forall in W |- *. intros z Hz.
  apply W. now apply in_rev.
Qed.

Lemma insertionPoint_agree (fuel : nat) (pivot : A) (sorted : list A)
    (left right : nat) :
  among pivot -> Forall among sorted ->
  V8.insertionPoint comparefn fuel pivot sorted left right
    = V8.insertionPoint comparefn' fuel pivot sorted left right.
Proof.
  intros Hp Hs. revert left right.
  induction fuel as [|fuel IH]; intros left right; [reflexivity |].
  simpl. destruct (left <? right)%nat; [|reflexivity].
  destruct (sorted !! _) as [y|] eqn:E; [|reflexivity].
  assert (Hy : among y).
  { rewrite List.Forall_forall in Hs. apply Hs.
    apply list_elem_of_In, list_elem_of_lookup. eauto. }
  now rewrite (agree pivot y Hp Hy), !IH.
Qed.

Lemma insertPivot_among (sorted : list A) (pivot : A) :
  among pivot -> Forall among sorted ->
  Forall among (V8.insertPivot comparefn sorted pivot).
Proof.
  intros Hp Hs. unfold V8.insertPivot.
  rewrite List.Forall_forall in Hs |- *. intros z Hz.
  apply in_app_or in Hz as [Hz|[<-|Hz]]; trivial; apply Hs;
    match goal with
    | H : In z (_ ?k sorted) |- _ =>
        rewrite <- (firstn_skipn k sorted); apply in_or_app; auto
    end.
Qed.

Lemma BinaryInsertionSort_agree (run rest : list A) :
  Forall among run -> Forall among rest ->
  V8.BinaryInsertionSort comparefn run rest
    = V8.BinaryInsertionSort comparefn' run rest.
Proof.
  unfold V8.BinaryInsertionSort. revert run.
  induction rest as [|pivot rest IH]; intros run Hr Hrest; [reflexivity |].
  inversion Hrest as [|? ? Hp Hrest']; subst. simpl.
  assert (E : V8.insertPivot comparefn run pivot
              = V8.insertPivot comparefn' run pivot)
    by (unfold V8.insertPivot; now rewrite insertionPoint_agree).
  rewrite <- E. apply IH; [now apply insertPivot_among | exact Hrest'].
Qed.

(** Two comparators that agree on the elements of the array give the
    same sorted array. *)
Lemma ArrayTimSort_agree (l : list A) :
  Forall among l ->
  V8.ArrayTimSort comparefn l = V8.ArrayTimSort comparefn' l.
Proof.
  intros Hl. unfold V8.ArrayTimSort.
  destruct (length l <? 64)%nat; [|reflexivity].
  rewrite <- (CountAndMakeRun_agree l Hl).
  destruct (CountAndMakeRun_among l Hl) as [H1 H2].
  destruct (V8.CountAndMakeRun comparefn l) as [run rest]. simpl in *.
  now rewrite BinaryInsertionSort_agree.
Qed.

End EngineSortFacts.

(** ** Ranking *)

Section RankingFacts.
Variable Date_parse : string -> number.

Local Abbreviation timestamp := (timestamp Date_parse).
Local Abbreviation comparator := (comparator Date_parse).
Local Abbreviation dated := (dated Date_parse).
Local Abbreviation outranks := (outranks Date_parse).
Local Abbreviation sorted := (sorted Date_parse).
Local Abbreviation best := (best Date_parse).

Lemma SortCompare_dated (a b : descriptor) (ta tb : Z) :
  timestamp a = Num ta -> timestamp b = Num tb ->
  SortCompare comparator a b =
    if score a =? score b then tb - ta else score a - score b.
Proof.
  intros Ha Hb. unfold SortCompare, Ranker.comparator. fold (score a) (score b).
  rewrite Ha, Hb.
  destruct (score a =? score b) eqn:E.
  - apply Z.eqb_eq in E. rewrite E, Z.sub_diag. reflexivity.
  - apply Z.eqb_neq in E.
    destruct (score a - score b =? 0) eqn:E'; [|reflexivity].
    apply Z.eqb_eq in E'. lia.
Qed.

Lemma SortCompare_outranks (a b : descriptor) :
  dated a -> dated b ->
  (SortCompare comparator a b <= 0 <-> outranks a b).
Proof.
  intros [ta Ha] [tb Hb]. rewrite (SortCompare_dated a b ta tb Ha Hb).
  unfold Ranker.outranks.
  destruct (score a =? score b) eqn:E.
  - apply Z.eqb_eq in E. split.
    + intros H. right. split; [exact E |]. exists ta, tb. repeat split; trivial. lia.
    + intros [H|(_ & ta' & tb' & Ha' & Hb' & H)]; [lia |].
      rewrite Ha in Ha'. rewrite Hb in Hb'.
      injection Ha' as <-. injection Hb' as <-. lia.
  - apply Z.eqb_neq in E. split.
    + intros H. left. lia.
    + intros [H|[H _]]; [lia | contradiction].
Qed.

Lemma comparator_total (a b : descriptor) :
  dated a -> dated b ->
  SortCompare comparator a b <= 0 \/ SortCompare comparator b a <= 0.
Proof.
  intros [ta Ha] [tb Hb].
  rewrite (SortCompare_dated a b ta tb Ha Hb), (SortCompare_dated b a tb ta Hb Ha).
  rewrite (Z.eqb_sym (score b)).
  destruct (score a =? score b); lia.
Qed.

Lemma comparator_trans (a b c : descriptor) :
  dated a -> dated b -> dated c ->
  SortCompare comparator a b <= 0 -> SortCompare comparator b c <= 0 ->
  SortCompare comparator a c <= 0.
Proof.
  intros [ta Ha] [tb Hb] [tc Hc].
  rewrite (SortCompare_dated a b ta tb Ha Hb), (SortCompare_dated b c tb tc Hb Hc),
    (SortCompare_dated a c ta tc Ha Hc).
  destruct (score a =? score b) eqn:E1, (score b =? score c) eqn:E2,
    (score a =? score c) eqn:E3;
    rewrite ?Z.eqb_eq, ?Z.eqb_neq in *; lia.
Qed.

(** Members of one class of ties may stand before one another, whatever
    their timestamps are. *)
Lemma tie_SortCompare (q : Z) (t : number) (a b : descriptor) :
  tie Date_parse q t a = true -> tie Date_parse q t b = true ->
  SortCompare comparator a b <= 0.
Proof.
  unfold tie. intros Ha Hb.
  apply andb_true_iff in Ha as [Qa Ta]. apply andb_true_iff in Hb as [Qb Tb].
  apply Z.eqb_eq in Qa, Qb.
  unfold SortCompare, Ranker.comparator. fold (score a) (score b).
  rewrite Qa, Qb, Z.sub_diag. simpl.
  destruct (timestamp a) as [x|], (timestamp b) as [y|], t as [z|];
    simpl in *; try discriminate; try lia.
Qed.

(** An absent date resolves to the epoch. *)
Lemma timestamp_absent (d : descriptor) :
  truthy (publicationDate d) = false -> truthy (date d) = false ->
  timestamp d = Num 0.
Proof.
  intros Hp Hd. unfold Ranker.timestamp, or_else. rewrite Hp, Hd. reflexivity.
Qed.

(** On descriptors whose dates are all absent or parseable, the selected
    element outranks every other one, and among the elements with its
    quality and timestamp it is the first of the input. *)
Lemma best_outranks_all (results : list descriptor) :
  results <> [] -> Forall dated results ->
  exists b,
    best results = Some b /\ In b results /\
    (forall d, In d results -> outranks b d) /\
    head (List.filter (tie Date_parse (score b) (timestamp b)) results) = Some b.
Proof.
  intros Hne Hd.
  destruct (Array_sort_head comparator dated comparator_total comparator_trans
              results Hne Hd) as (b & Hb & Hin & Hmin).
  exists b. split; [exact Hb |]. split; [exact Hin |].
  assert (Db : dated b) by (rewrite List.Forall_forall in Hd; auto).
  split.
  - intros d Hd'. apply SortCompare_outranks; trivial.
    + rewrite List.Forall_forall in Hd; auto.
    + destruct (Hmin d Hd') as [H| ->]; [exact H |].
      destruct (comparator_total b b Db Db); assumption.
  - rewrite <- (Array_sort_stable comparator _ results
                  (tie_SortCompare (score b) (timestamp b))).
    unfold Ranker.best, Ranker.sorted in Hb.
    destruct (Array_sort comparator results) as [|x r]; [discriminate |].
    injection Hb as ->. simpl.
    assert (T : tie Date_parse (score b) (timestamp b) b = true).
    { unfold tie. rewrite Z.eqb_refl.
      destruct (timestamp b); simpl; [apply Z.eqb_refl | reflexivity]. }
    now rewrite T.
Qed.

(** The handler: nothing is loaded for an empty result list; otherwise
    the selected element is handed to [loadDataset]. *)
Lemma handleSearchComplete_empty (ctl : option control) (ev : option event) :
  event_payload ev = [] ->
  handleSearchComplete Date_parse ctl ev = [ConsoleLog "LiDAR search complete" []].
Proof. intros H. unfold handleSearchComplete. now rewrite H. Qed.

Lemma handleSearchComplete_loads (ev : option event) (b : descriptor) :
  event_payload ev <> [] ->
  best (event_payload ev) = Some b ->
  handleSearchComplete Date_parse (Some {| loadDataset := true |}) ev =
    [ConsoleLog "LiDAR search complete" (event_payload ev); LoadDataset b].
Proof.
  intros Hne Hb. unfold handleSearchComplete.
  destruct (event_payload ev) as [|x r] eqn:E; [congruence |].
  simpl length. simpl Nat.eqb. cbv iota. now rewrite Hb.
Qed.

Lemma handleSearchComplete_loads_best (ev : option event) :
  event_payload ev <> [] -> Forall dated (event_payload ev) ->
  exists b,
    handleSearchComplete Date_parse (Some {| loadDataset := true |}) ev =
      [ConsoleLog "LiDAR search complete" (event_payload ev); LoadDataset b] /\
    In b (event_payload ev) /\
    forall d, In d (event_payload ev) -> outranks b d.
Proof.
  intros Hne Hd.
  destruct (best_outranks_all _ Hne Hd) as (b & Hb & Hin & Hmin & _).
  exists b. split; [now apply handleSearchComplete_loads | now split].
Qed.

(** The example of the specification. *)
Lemma best_of_spec_example :
  Date_parse "2019-01-01" = Num 1546300800000 ->
  Date_parse "2021-01-01" = Num 1609459200000 ->
  best [dataset "QL2" "2020-01-01" "a"; dataset "QL0" "2019-01-01" "b";
        dataset "QL0" "2021-01-01" "c"]
  = Some (dataset "QL0" "2021-01-01" "c").
Proof.
  intros H19 H21.
  unfold Ranker.best, Ranker.sorted, Array_sort, insert, SortCompare,
    Ranker.comparator, Ranker.timestamp, dataset, getTime, or_else; simpl.
  rewrite H19, H21. reflexivity.
Qed.

(** On dated descriptors, a descriptor without any date stands after
    every peer of its quality that has a later date: whatever follows it
    in the sorted output with the same quality is dated at the epoch or
    before. *)
Lemma absent_date_ranked_last
    (results l1 l2 : list descriptor) (x y : descriptor) (t : Z) :
  Forall dated results ->
  truthy (publicationDate x) = false -> truthy (date x) = false ->
  sorted results = l1 ++ x :: l2 -> In y l2 ->
  score y = score x -> timestamp y = Num t ->
  t <= 0.
Proof.
  intros Hd Hp Hdt E Hy Hs Ht.
  pose proof (Array_sort_order comparator dated comparator_total comparator_trans
                results l1 l2 x y Hd E Hy) as H.
  unfold precedes in H.
  rewrite (SortCompare_dated x y 0 t (timestamp_absent x Hp Hdt) Ht) in H.
  rewrite Hs, Z.eqb_refl in H. lia.
Qed.

Lemma tie_refl (d : descriptor) :
  tie Date_parse (score d) (timestamp d) d = true.
Proof.
  unfold tie. rewrite Z.eqb_refl.
  destruct (timestamp d); simpl; [apply Z.eqb_refl | reflexivity].
Qed.

(** On descriptors whose dates are all absent or parseable the sort is
    stable (and there every stable sort returns this array, see
    [stable_sort_unique]): the descriptors of one quality score and one
    timestamp appear in the sorted output as in the input, and a tied
    pair keeps its relative position. *)
Lemma sort_stable_when_dated (results : list descriptor) :
  Forall dated results ->
  (forall (q : Z) (t : number),
      List.filter (tie Date_parse q t) (sorted results) =
      List.filter (tie Date_parse q t) results) /\
  (forall (a b : descriptor) (l1 l2 l3 : list descriptor),
      results = l1 ++ a :: l2 ++ b :: l3 ->
      score a = score b -> timestamp a = timestamp b ->
      exists r1 r2 r3, sorted results = r1 ++ a :: r2 ++ b :: r3).
Proof.
  intros _. split.
  - intros q t. unfold Ranker.sorted. apply Array_sort_stable.
    intros a b. apply tie_SortCompare.
  - intros a b l1 l2 l3 -> Hs Ht. unfold Ranker.sorted.
    apply (Array_sort_stable_pair comparator
             (tie Date_parse (score a) (timestamp a))).
    + intros x y. apply tie_SortCompare.
    + apply tie_refl.
    + rewrite Hs, Ht. apply tie_refl.
Qed.

(** C4 at a failing input.  Seven descriptors of quality QL0.  [n] has a
    publication date that is not a date; [f] and [g] are both published
    on 2020-01-01, and [f] stands before [g] in the results.  The
    comparator yields NaN on every pair with [n], so it is not
    consistent, and the sort of V8 returns [g] before [f]: the first five
    elements form the initial run ([n] ties with its neighbours), then
    the binary search for [x] and for [g] meets [m] (2019) and goes
    left of it, while [f] stayed right of [m] behind [n]. *)
Theorem engine_sort_reorders_a_tie :
  Date_parse "unknown" = NaN ->
  Date_parse "2019-01-01" = Num 1546300800000 ->
  Date_parse "2020-01-01" = Num 1577836800000 ->
  Date_parse "2021-01-01" = Num 1609459200000 ->
  Date_parse "2022-01-01" = Num 1640995200000 ->
  Date_parse "2023-01-01" = Num 1672531200000 ->
  let a0 := dataset "QL0" "2023-01-01" "a0" in
  let a1 := dataset "QL0" "2022-01-01" "a1" in
  let m := dataset "QL0" "2019-01-01" "m" in
  let n := dataset "QL0" "unknown" "n" in
  let f := dataset "QL0" "2020-01-01" "f" in
  let x := dataset "QL0" "2021-01-01" "x" in
  let g := dataset "QL0" "2020-01-01" "g" in
  score f = score g /\
  timestamp f = timestamp g /\
  f <> g /\
  comparator f n = NaN /\
  V8.ArrayTimSort comparator [a0; a1; m; n; f; x; g]
    = Some [a0; a1; x; g; m; n; f].
Proof.
  intros Hu H19 H20 H21 H22 H23 a0 a1 m n f x g.
  assert (T : forall d, In d [a0; a1; m; n; f; x; g] ->
                        timestamp d = Ranker.timestamp Date_parse_iso d).
  { intros d Hd. simpl in Hd.
    destruct Hd as [<-|[<-|[<-|[<-|[<-|[<-|[<-|[]]]]]]]];
      unfold Ranker.timestamp, dataset, getTime, or_else; simpl;
      rewrite ?Hu, ?H19, ?H20, ?H21, ?H22, ?H23; reflexivity. }
  split; [reflexivity |].
  split; [now rewrite !T by (simpl; tauto) |].
  split; [discriminate |].
  split.
  - unfold Ranker.comparator. fold (timestamp f) (timestamp n).
    rewrite (T f), (T n) by (simpl; tauto). reflexivity.
  - rewrite (ArrayTimSort_agree comparator (Ranker.comparator Date_parse_iso)
               (fun d => In d [a0; a1; m; n; f; x; g])).
    + reflexivity.
    + intros a b Ha Hb. unfold SortCompare, Ranker.comparator.
      now rewrite (T a Ha), (T b Hb).
    + apply List.Forall_forall. trivial.
Qed.

(** C1 at a failing input.  Two descriptors of quality QL0, the first
    with a publication date that is not a date, the second published on
    2021-01-01.  The comparator yields [NaN] on the pair, which the sort
    reads as a tie, so the input order is kept and the descriptor without
    a usable date is selected and loaded, although its peer has the same
    quality and a proper, later timestamp. *)
Theorem best_selects_unparseable_date :
  Date_parse "unknown" = NaN ->
  Date_parse "2021-01-01" = Num 1609459200000 ->
  let x := dataset "QL0" "unknown" "x" in
  let y := dataset "QL0" "2021-01-01" "y" in
  score x = score y /\
  timestamp x = NaN /\
  timestamp y = Num 1609459200000 /\
  comparator x y = NaN /\
  comparator y x = NaN /\
  best [x; y] = Some x /\
  handleSearchComplete Date_parse (Some {| loadDataset := true |})
    (Some {| event_detail := None; event_results := Some [x; y] |})
  = [ConsoleLog "LiDAR search complete" [x; y]; LoadDataset x].
Proof.
  intros Hu H21.
  unfold handleSearchComplete, event_payload, Ranker.best, Ranker.sorted,
    Array_sort, insert, SortCompare, Ranker.comparator, Ranker.timestamp,
    dataset, getTime, or_else, score; simpl.
  rewrite Hu, H21. simpl. repeat split; reflexivity.
Qed.

(** C3 at a failing input.  A publication date that is not a date
    resolves to [NaN], not to the epoch: the [|| 0] fallback only covers
    an absent date, and the [date] field is not consulted either.  The
    descriptor is then not ranked after an equal-quality peer with a
    later date, and the comparator is not transitive: [z] (2019) may
    stand before [x] (not a date), [x] before [y] (2021), but [z] may not
    stand before [y]. *)
Theorem unparseable_date_not_epoch :
  Date_parse "unknown" = NaN ->
  Date_parse "2019-01-01" = Num 1546300800000 ->
  Date_parse "2021-01-01" = Num 1609459200000 ->
  let x := dataset "QL0" "unknown" "x" in
  let y := dataset "QL0" "2021-01-01" "y" in
  let z := dataset "QL0" "2019-01-01" "z" in
  timestamp x <> Num 0 /\
  timestamp {| qualityLevel := JStr "QL0"; publicationDate := JStr "unknown";
               date := JStr "2021-01-01"; name := "x" |} = NaN /\
  sorted [x; y] = [x; y] /\
  SortCompare comparator z x <= 0 /\
  SortCompare comparator x y <= 0 /\
  ~ SortCompare comparator z y <= 0.
Proof.
  intros Hu H19 H21.
  unfold Ranker.sorted, Array_sort, insert, SortCompare, Ranker.comparator,
    Ranker.timestamp, dataset, getTime, or_else; simpl.
  rewrite Hu, H19, H21. simpl.
  repeat split; try reflexivity; try discriminate; lia.
Qed.

End RankingFacts.

Lemma engine_sort_reorders_a_tie_witness :
  V8.ArrayTimSort (comparator Date_parse_iso)
    [dataset "QL0" "2023-01-01" "a0"; dataset "QL0" "2022-01-01" "a1";
     dataset "QL0" "2019-01-01" "m"; dataset "QL0" "unknown" "n";
     dataset "QL0" "2020-01-01" "f"; dataset "QL0" "2021-01-01" "x";
     dataset "QL0" "2020-01-01" "g"]
  = Some [dataset "QL0" "2023-01-01" "a0"; dataset "QL0" "2022-01-01" "a1";
          dataset "QL0" "2021-01-01" "x"; dataset "QL0" "2020-01-01" "g";
          dataset "QL0" "2019-01-01" "m"; dataset "QL0" "unknown" "n";
          dataset "QL0" "2020-01-01" "f"].
Proof.
  apply (engine_sort_reorders_a_tie Date_parse_iso); reflexivity.
Defined.

(** The same seven descriptors with a proper date for [n]: the
    comparator is consistent, the sort of V8 and the model return the
    same array, and [f] stays before [g]. *)
Lemma engine_sort_on_dated_results :
  let results :=
    [dataset "QL0" "2023-01-01" "a0"; dataset "QL0" "2022-01-01" "a1";
     dataset "QL0" "2019-01-01" "m"; dataset "QL0" "2018-01-01" "n";
     dataset "QL0" "2020-01-01" "f"; dataset "QL0" "2021-01-01" "x";
     dataset "QL0" "2020-01-01" "g"] in
  V8.ArrayTimSort (comparator Date_parse_iso) results
    = Some (sorted Date_parse_iso results) /\
  List.map name (sorted Date_parse_iso results)
    = ["a0"; "a1"; "x"; "f"; "g"; "m"; "n"].
Proof. split; reflexivity. Qed.

Lemma best_selects_unparseable_date_witness :
  best Date_parse_iso
    [dataset "QL0" "unknown" "x"; dataset "QL0" "2021-01-01" "y"]
  = Some (dataset "QL0" "unknown" "x").
Proof.
  apply (best_selects_unparseable_date Date_parse_iso); reflexivity.
Defined.

Lemma unparseable_date_not_epoch_witness :
  timestamp Date_parse_iso (dataset "QL0" "unknown" "x") <> Num 0.
Proof.
  apply (unparseable_date_not_epoch Date_parse_iso); reflexivity.
Defined.

(** ** Styling *)

Section StyleFacts.

Lemma with_paint_twice (name : string) (e e' : expr) (l : layer) :
  with_paint name e' (with_paint name e l) = with_paint name e' l.
Proof. unfold with_paint. simpl. now rewrite insert_insert_eq. Qed.

Lemma with_filter_twice (f f' : expr) (l : layer) :
  with_filter f' (with_filter f l) = with_filter f' l.
Proof. reflexivity. Qed.

(** Guarding [alter] by the presence of the layer changes nothing. *)
Lemma alter_if_present (f : layer -> layer) (m : gmap string layer) (id : string) :
  match m !! id with Some _ => alter f id m | None => m end = alter f id m.
Proof.
  destruct (m !! id) eqn:E; [reflexivity |].
  apply map_eq. intros k. rewrite lookup_alter.
  case_decide; [subst; now rewrite E | reflexivity].
Qed.

Lemma colorLayer_alter (scheme : string) (e : expr) (m : gmap string layer)
    (id : string) :
  scheme_paint scheme = Some e ->
  colorLayer scheme m id = alter (with_paint "point-color" e) id m.
Proof.
  intros H. rewrite <- alter_if_present.
  unfold colorLayer, getLayer, setPaintProperty, scheme_paint in *.
  destruct (m !! id); [|reflexivity].
  destruct (String.eqb scheme "elevation"); [now injection H as <- |].
  destruct (String.eqb scheme "intensity"); [now injection H as <- |].
  destruct (String.eqb scheme "classification"); [now injection H as <- |].
  destruct (String.eqb scheme "rgb"); [now injection H as <- | discriminate].
Qed.

Lemma colorLayer_unknown (scheme : string) (m : gmap string layer) (id : string) :
  scheme_paint scheme = None -> colorLayer scheme m id = m.
Proof.
  intros H. unfold colorLayer, scheme_paint in *.
  destruct (getLayer m id); [|reflexivity].
  destruct (String.eqb scheme "elevation"); [discriminate |].
  destruct (String.eqb scheme "intensity"); [discriminate |].
  destruct (String.eqb scheme "classification"); [discriminate |].
  destruct (String.eqb scheme "rgb"); [discriminate | reflexivity].
Qed.

Lemma filterLayer_alter (t : Q) (m : gmap string layer) (id : string) :
  filterLayer t m id = alter (with_filter (seaLevelFilter t)) id m.
Proof. unfold filterLayer, getLayer, setFilter. apply alter_if_present. Qed.

(** Altering the layers of a list of ids with a function that overwrites:
    the listed layers are altered once, the others are left alone. *)
Lemma fold_alter_lookup (f : layer -> layer) (ids : list string)
    (m : gmap string layer) (k : string) :
  (forall l, f (f l) = f l) ->
  fold_left (fun m id => alter f id m) ids m !! k =
    if decide (k ∈ ids) then f <$> m !! k else m !! k.
Proof.
  intros Hf. revert m. induction ids as [|id ids IH]; intros m; cbn [fold_left].
  - destruct (decide (k ∈ [])) as [H|_]; [now apply elem_of_nil in H | reflexivity].
  - rewrite IH, lookup_alter.
    destruct (decide (id = k)) as [->|Hne].
    + rewrite (decide_True (P := k ∈ k :: ids)) by apply list_elem_of_here.
      destruct (decide (k ∈ ids)); [|reflexivity].
      destruct (m !! k); simpl; [now rewrite Hf | reflexivity].
    + destruct (decide (k ∈ ids)) as [Hin|Hin].
      * rewrite decide_True by now apply list_elem_of_further. reflexivity.
      * rewrite decide_False; [reflexivity |].
        intros [?|?]%elem_of_cons; [congruence | contradiction].
Qed.

Lemma applyColorScheme_lookup (ids : list string) (m : gmap string layer)
    (scheme : string) (e : expr) (k : string) :
  scheme_paint scheme = Some e ->
  applyColorScheme ids m scheme !! k =
    if decide (k ∈ ids) then with_paint "point-color" e <$> m !! k else m !! k.
Proof.
  intros H. unfold applyColorScheme.
  rewrite <- (fold_alter_lookup _ ids m k (with_paint_twice _ e e)).
  f_equal. revert m. induction ids as [|id ids IH]; intros m; simpl; [reflexivity |].
  now rewrite (colorLayer_alter scheme e), IH.
Qed.

Lemma applyColorScheme_unknown (ids : list string) (m : gmap string layer)
    (scheme : string) :
  scheme_paint scheme = None -> applyColorScheme ids m scheme = m.
Proof.
  intros H. unfold applyColorScheme. revert m.
  induction ids as [|id ids IH]; intros m; simpl; [reflexivity |].
  now rewrite (colorLayer_unknown scheme m id H).
Qed.

Lemma applySeaLevelFilter_lookup (ids : list string) (m : gmap string layer)
    (t : Q) (k : string) :
  applySeaLevelFilter ids m t !! k =
    if decide (k ∈ ids) then with_filter (seaLevelFilter t) <$> m !! k
    else m !! k.
Proof.
  unfold applySeaLevelFilter.
  rewrite <- (fold_alter_lookup _ ids m k (with_filter_twice _ (seaLevelFilter t))).
  f_equal. revert m. induction ids as [|id ids IH]; intros m; simpl; [reflexivity |].
  now rewrite filterLayer_alter, IH.
Qed.

(** Layers outside the layer set are never touched. *)
Lemma applyColorScheme_frame (ids : list string) (m : gmap string layer)
    (scheme : string) (k : string) :
  k ∉ ids -> applyColorScheme ids m scheme !! k = m !! k.
Proof.
  intros Hk. destruct (scheme_paint scheme) as [e|] eqn:E.
  - rewrite (applyColorScheme_lookup ids m scheme e k E).
    now rewrite decide_False.
  - now rewrite applyColorScheme_unknown.
Qed.

Lemma applySeaLevelFilter_frame (ids : list string) (m : gmap string layer)
    (t : Q) (k : string) :
  k ∉ ids -> applySeaLevelFilter ids m t !! k = m !! k.
Proof.
  intros Hk. rewrite applySeaLevelFilter_lookup. now rewrite decide_False.
Qed.

Lemma scheme_paint_recognized (scheme : string) :
  recognized scheme <-> exists e, scheme_paint scheme = Some e.
Proof.
  unfold recognized, scheme_paint. simpl. split.
  - intros [<-|[<-|[<-|[<-|[]]]]]; simpl; eauto.
  - intros [e H].
    destruct (String.eqb scheme "elevation") eqn:E1;
      [apply String.eqb_eq in E1; auto |].
    destruct (String.eqb scheme "intensity") eqn:E2;
      [apply String.eqb_eq in E2; auto |].
    destruct (String.eqb scheme "classification") eqn:E3;
      [apply String.eqb_eq in E3; auto |].
    destruct (String.eqb scheme "rgb") eqn:E4;
      [apply String.eqb_eq in E4; auto 6 | discriminate].
Qed.

Lemma eval_seaLevelFilter (t : Q) (p : gmap string Q) :
  eval_filter (seaLevelFilter t) p = true <->
  exists z, p !! "Z" = Some z /\ (t <= z)%Q.
Proof.
  unfold seaLevelFilter, get, eval_filter. simpl.
  destruct (p !! "Z") as [z|].
  - rewrite Qle_bool_iff. split; [intros H; now exists z |].
    intros [z' [E H]]. now injection E as ->.
  - split; [discriminate | intros [z [E _]]; discriminate].
Qed.

(** C5: for every threshold and every id of the layer set that is
    present in the map, [applySeaLevelFilter] leaves that layer with the
    filter [[">=", ["get", "Z"], threshold]], whatever filter it had
    before, and with its other properties unchanged.  The filter accepts
    exactly the points whose attribute Z is at least the threshold; at
    threshold 1.5 it accepts Z = 1.5 and Z = 3.0 and rejects Z = 1.4. *)
Theorem sea_level_filter_replaces
    (ids : list string) (m : gmap string layer) (t : Q)
    (id : string) (l : layer) :
  id ∈ ids -> m !! id = Some l ->
  (exists l',
      applySeaLevelFilter ids m t !! id = Some l' /\
      layer_filter l' =
        Some (EArr [EStr ">="; EArr [EStr "get"; EStr "Z"]; ENum t]) /\
      layer_paint l' = layer_paint l /\ layer_type l' = layer_type l) /\
  (forall p : gmap string Q,
      eval_filter (EArr [EStr ">="; EArr [EStr "get"; EStr "Z"]; ENum t]) p = true
      <-> exists z, p !! "Z" = Some z /\ (t <= z)%Q) /\
  eval_filter (seaLevelFilter 1.5) (point_at 1.5) = true /\
  eval_filter (seaLevelFilter 1.5) (point_at 3.0) = true /\
  eval_filter (seaLevelFilter 1.5) (point_at 1.4) = false.
Proof.
  intros Hin Hl. split; [|split; [apply eval_seaLevelFilter | repeat split]].
  exists (with_filter (seaLevelFilter t) l).
  rewrite applySeaLevelFilter_lookup, decide_True, Hl by exact Hin.
  repeat split.
Qed.

Lemma sea_level_filter_replaces_witness :
  exists l',
    applySeaLevelFilter ["lidar-1"; "lidar-2"; "lidar-9"] sample_map 1.5
      !! "lidar-2" = Some l' /\
    layer_filter l' =
      Some (EArr [EStr ">="; EArr [EStr "get"; EStr "Z"]; ENum 1.5]) /\
    layer_paint l' = ∅ /\ layer_type l' = "circle".
Proof.
  apply (sea_level_filter_replaces ["lidar-1"; "lidar-2"; "lidar-9"]
           sample_map 1.5 "lidar-2"
           (sample_layer "circle" (Some (EArr [EStr "has"; EStr "Z"])))).
  - apply list_elem_of_further, list_elem_of_here.
  - reflexivity.
Defined.

Lemma eval_classification (p : gmap string Q) (v : Q) :
  p !! "Classification" = Some v ->
  eval_match classification_paint p =
    Some (if Qeq_bool v 2 then "#4caf50"
          else if Qeq_bool v 7 then "#1976d2"
          else if Qeq_bool v 9 then "#ffb300"
          else if Qeq_bool v 10 then "#ef5350"
          else "#9e9e9e").
Proof.
  intros H. unfold classification_paint, get, eval_match. simpl. rewrite H.
  destruct (Qeq_bool v 2), (Qeq_bool v 7), (Qeq_bool v 9), (Qeq_bool v 10);
    reflexivity.
Qed.

(** C6: for every id of the layer set that is present in the map, the
    scheme [elevation] sets [point-color] to the linear interpolation
    over attribute Z with the control points 0, 1, 2.5, 3.5, 5 and their
    colours, and the scheme [classification] sets it to the match on
    attribute Classification with 2, 7, 9, 10 and the fallback colour.
    Both expressions are constants: they depend on the scheme only, not
    on the layer, the layer set or the map. *)
Theorem color_scheme_expressions
    (ids : list string) (m : gmap string layer) (id : string) (l : layer) :
  id ∈ ids -> m !! id = Some l ->
  (exists l',
      applyColorScheme ids m "elevation" !! id = Some l' /\
      layer_paint l' !! "point-color" =
        Some (EArr [EStr "interpolate"; EArr [EStr "linear"];
                    EArr [EStr "get"; EStr "Z"];
                    ENum 0; EStr "#0d47a1"; ENum 1; EStr "#1976d2";
                    ENum 2.5; EStr "#26c6da"; ENum 3.5; EStr "#fdd835";
                    ENum 5; EStr "#ef5350"])) /\
  (exists l',
      applyColorScheme ids m "classification" !! id = Some l' /\
      layer_paint l' !! "point-color" =
        Some (EArr [EStr "match"; EArr [EStr "get"; EStr "Classification"];
                    ENum 2; EStr "#4caf50"; ENum 7; EStr "#1976d2";
                    ENum 9; EStr "#ffb300"; ENum 10; EStr "#ef5350";
                    EStr "#9e9e9e"])) /\
  interpolate_linear elevation_paint =
    Some ("Z", [(0%Q, "#0d47a1"); (1%Q, "#1976d2"); (2.5%Q, "#26c6da");
                (3.5%Q, "#fdd835"); (5%Q, "#ef5350")]) /\
  (forall (p : gmap string Q) (v : Q),
      p !! "Classification" = Some v ->
      eval_match classification_paint p =
        Some (if Qeq_bool v 2 then "#4caf50"
              else if Qeq_bool v 7 then "#1976d2"
              else if Qeq_bool v 9 then "#ffb300"
              else if Qeq_bool v 10 then "#ef5350"
              else "#9e9e9e")).
Proof.
  intros Hin Hl. split; [|split; [|split; [reflexivity | exact eval_classification]]].
  - exists (with_paint "point-color" elevation_paint l).
    rewrite (applyColorScheme_lookup ids m "elevation" elevation_paint id eq_refl).
    rewrite decide_True, Hl by exact Hin.
    split; [reflexivity |]. unfold with_paint. simpl. apply lookup_insert_eq.
  - exists (with_paint "point-color" classification_paint l).
    rewrite (applyColorScheme_lookup ids m "classification" classification_paint
               id eq_refl).
    rewrite decide_True, Hl by exact Hin.
    split; [reflexivity |]. unfold with_paint. simpl. apply lookup_insert_eq.
Qed.

Lemma color_scheme_expressions_witness :
  exists l',
    applyColorScheme ["lidar-1"; "lidar-2"] sample_map "classification"
      !! "lidar-1" = Some l' /\
    layer_paint l' !! "point-color" =
      Some (EArr [EStr "match"; EArr [EStr "get"; EStr "Classification"];
                  ENum 2; EStr "#4caf50"; ENum 7; EStr "#1976d2";
                  ENum 9; EStr "#ffb300"; ENum 10; EStr "#ef5350";
                  EStr "#9e9e9e"]).
Proof.
  apply (color_scheme_expressions ["lidar-1"; "lidar-2"] sample_map "lidar-1"
           (sample_layer "circle" None)).
  - apply list_elem_of_here.
  - reflexivity.
Defined.

(** C8: a scheme string outside {elevation, intensity, classification,
    rgb} produces no paint instruction: the map comes back unchanged,
    for every layer set.  ([applyColorScheme] is a total function: there
    is no failing case.) *)
Theorem unknown_scheme_is_noop
    (ids : list string) (m : gmap string layer) (scheme : string) :
  ~ recognized scheme -> applyColorScheme ids m scheme = m.
Proof.
  intros H. apply applyColorScheme_unknown.
  destruct (scheme_paint scheme) as [e|] eqn:E; [|reflexivity].
  destruct H. apply scheme_paint_recognized. now exists e.
Qed.

Lemma unknown_scheme_is_noop_witness :
  applyColorScheme ["lidar-1"; "lidar-2"] sample_map "hillshade" = sample_map.
Proof.
  apply unknown_scheme_is_noop.
  unfold recognized. simpl. intros [H|[H|[H|[H|[]]]]]; discriminate.
Defined.

(** C9: the last scheme applied wins.  For recognized schemes A and B,
    applying A and then B leaves the map, hence every layer's paint,
    exactly as applying B alone; applying a scheme twice is the same as
    applying it once, and so is applying a threshold twice. *)
Theorem last_applied_wins
    (ids : list string) (m : gmap string layer) (A B : string) (t : Q) :
  recognized A -> recognized B ->
  applyColorScheme ids (applyColorScheme ids m A) B = applyColorScheme ids m B /\
  applyColorScheme ids (applyColorScheme ids m A) A = applyColorScheme ids m A /\
  applySeaLevelFilter ids (applySeaLevelFilter ids m t) t
    = applySeaLevelFilter ids m t.
Proof.
  intros [a Ha]%scheme_paint_recognized [b Hb]%scheme_paint_recognized.
  repeat split; apply map_eq; intros k.
  - rewrite !(applyColorScheme_lookup _ _ B b k Hb),
      (applyColorScheme_lookup _ _ A a k Ha).
    destruct (decide (k ∈ ids)); [|reflexivity].
    destruct (m !! k); simpl; [now rewrite with_paint_twice | reflexivity].
  - rewrite !(applyColorScheme_lookup _ _ A a k Ha).
    destruct (decide (k ∈ ids)); [|reflexivity].
    destruct (m !! k); simpl; [now rewrite with_paint_twice | reflexivity].
  - rewrite !applySeaLevelFilter_lookup.
    destruct (decide (k ∈ ids)); [|reflexivity].
    now destruct (m !! k).
Qed.

Lemma last_applied_wins_witness :
  applyColorScheme ["lidar-1"; "lidar-2"]
    (applyColorScheme ["lidar-1"; "lidar-2"] sample_map "classification")
    "elevation"
  = applyColorScheme ["lidar-1"; "lidar-2"] sample_map "elevation".
Proof.
  apply (last_applied_wins ["lidar-1"; "lidar-2"] sample_map
           "classification" "elevation" 1.5).
  - unfold recognized. simpl. tauto.
  - unfold recognized. simpl. tauto.
Defined.

End StyleFacts.

(** ** The Florida feature filter *)

Section OverlayFacts.

Lemma falsy_no_FL (v : value) : truthy v = false -> ~ mentions_FL v.
Proof.
  intros Hv [s [Hs Ho]]. apply includes_occurs in Ho.
  destruct v as [| |[|]|z|x]; simpl in Hv, Hs; try discriminate;
    injection Hs as <-.
  - discriminate.
  - apply negb_false_iff, Z.eqb_eq in Hv. subst. discriminate.
  - apply negb_false_iff, String.eqb_eq in Hv. subst. discriminate.
Qed.

Lemma truthy_mentions_FL (v : value) :
  truthy v = true ->
  (includes "FL" (toUpperCase (toString v)) = true <-> mentions_FL v).
Proof.
  intros Hv. rewrite includes_occurs. unfold mentions_FL.
  assert (E : text_of v = Some (toString v))
    by (destruct v; simpl in *; congruence).
  rewrite E. split.
  - intros H. now exists (toString v).
  - intros [s [Hs H]]. now injection Hs as <-.
Qed.

Lemma isFlorida_spec (f : feature) : isFlorida f = true <-> in_florida f.
Proof.
  unfold isFlorida, in_florida, or_else, and_then.
  destruct (truthy (prop_state f)) eqn:E1.
  - rewrite E1. simpl. rewrite (truthy_mentions_FL _ E1).
    split; [tauto | intros [H|[H _]]; [exact H | discriminate]].
  - pose proof (falsy_no_FL _ E1) as N1.
    destruct (truthy (prop_STATE f)) eqn:E2.
    + simpl. rewrite (truthy_mentions_FL _ E2). tauto.
    + rewrite E2. pose proof (falsy_no_FL _ E2) as N2.
      split; [discriminate | tauto].
Qed.

(** C7: the Florida filter keeps a feature exactly when its [state]
    property (or, failing that, its [STATE] property) exists and its
    string form, uppercased, contains FL.  Among the states ["FL"], ["fl"], ["GA"] and a feature
    without state, exactly the first two are kept; a feature without
    properties is dropped as well, and a missing feature array gives the
    empty list. *)
Theorem florida_filter_keeps_FL :
  (forall (fs : list feature) (f : feature),
      In f (floridaFeatures (Some fs)) <-> In f fs /\ in_florida f) /\
  floridaFeatures
    (Some [feature_of_state (JStr "FL") "a"; feature_of_state (JStr "fl") "b";
           feature_of_state (JStr "GA") "c"; feature_of_state JUndefined "d";
           {| feature_properties := None; feature_id := "e" |}])
  = [feature_of_state (JStr "FL") "a"; feature_of_state (JStr "fl") "b"] /\
  floridaFeatures None = [].
Proof.
  split; [|split; reflexivity].
  intros fs f. unfold floridaFeatures.
  now rewrite filter_In, isFlorida_spec.
Qed.

End OverlayFacts.

(** * Further properties of the program *)

(** ** Quality score: values, letter case, surrounding text *)

Section QualityScoreMore.

Lemma upper_ascii_idem (c : ascii) : upper_ascii (upper_ascii c) = upper_ascii c.
Proof. destruct c as [[] [] [] [] [] [] [] []]; reflexivity. Qed.

Lemma toUpperCase_idem (s : string) : toUpperCase (toUpperCase s) = toUpperCase s.
Proof.
  induction s as [|c s IH]; simpl; [reflexivity |].
  now rewrite upper_ascii_idem, IH.
Qed.

Lemma score_of_normalized (s : string) :
  getQualityScore (JStr s) =
    if includes "QL0" (toUpperCase s) then 0
    else if includes "QL1" (toUpperCase s) then 1
    else if includes "QL2" (toUpperCase s) then 2
    else if includes "QL3" (toUpperCase s) then 3
    else 9.
Proof. unfold getQualityScore. now rewrite label_str. Qed.

Lemma append_assoc (a b c : string) : (a +:+ b) +:+ c = a +:+ (b +:+ c).
Proof.
  induction a as [|x a IH]; [reflexivity |].
  now rewrite !append_cons, IH.
Qed.

Lemma occurs_ci_extend (tag a s b : string) :
  occurs_ci tag s -> occurs_ci tag (a +:+ s +:+ b).
Proof.
  intros (pre & mid & post & -> & Hm).
  exists (a +:+ pre), mid, (post +:+ b). split; [|exact Hm].
  now rewrite !append_assoc.
Qed.

(** X1: whatever the input is (a string, a number, a boolean, null,
    undefined), the quality score is one of 0, 1, 2, 3, 9. *)
Theorem quality_score_values (v : value) :
  getQualityScore v = 0 \/ getQualityScore v = 1 \/ getQualityScore v = 2 \/
  getQualityScore v = 3 \/ getQualityScore v = 9.
Proof. pose proof (score_range v) as H. simpl in H. intuition congruence. Qed.

(** X2: the score does not depend on letter case.  Two labels with the
    same uppercase form have the same score; in particular a label and
    its uppercase form do. *)
Theorem quality_score_ignores_case :
  (forall s s', toUpperCase s = toUpperCase s' ->
                getQualityScore (JStr s) = getQualityScore (JStr s')) /\
  (forall s, getQualityScore (JStr (toUpperCase s)) = getQualityScore (JStr s)).
Proof.
  split.
  - intros s s' H. now rewrite !score_of_normalized, H.
  - intros s. now rewrite !score_of_normalized, toUpperCase_idem.
Qed.

Lemma quality_score_ignores_case_witness :
  getQualityScore (JStr "Usgs Ql2 tile") = getQualityScore (JStr "USGS qL2 TILE").
Proof.
  apply (proj1 quality_score_ignores_case "Usgs Ql2 tile" "USGS qL2 TILE").
  reflexivity.
Defined.

(** X3: what a score says about the label.  A label scores [i] in 0..3
    exactly when it contains the tag QL[i] and none of the tags with a
    smaller number; it scores 9 exactly when it contains none of the
    four tags. *)
Theorem quality_score_characterised (s : string) :
  (forall i, 0 <= i <= 3 ->
     (getQualityScore (JStr s) = i <->
      occurs_ci (QL i) s /\ forall j, 0 <= j < i -> ~ occurs_ci (QL j) s)) /\
  (getQualityScore (JStr s) = 9 <->
   forall i, 0 <= i <= 3 -> ~ occurs_ci (QL i) s).
Proof.
  pose proof (score_by_first_match (JStr s)) as K.
  rewrite label_str in K. cbv zeta in K.
  split.
  - intros i Hi. split.
    + intros E.
      assert (P : forall j, 0 <= j <= 3 -> QL j = "QL0" \/ QL j = "QL1"
                                          \/ QL j = "QL2" \/ QL j = "QL3")
        by (intros j Hj; destruct (QL_cases j Hj) as [[_ ->]|[[_ ->]|[[_ ->]|[_ ->]]]]; tauto).
      destruct (QL_cases i Hi) as [[-> Q]|[[-> Q]|[[-> Q]|[-> Q]]]]; rewrite Q;
        (split; [intuition congruence |]);
        intros j Hj;
        assert (j = 0 \/ j = 1 \/ j = 2) as [-> | [-> | ->]] by lia;
        try lia;
        first [change (QL 0) with "QL0" | change (QL 1) with "QL1"
              | change (QL 2) with "QL2"];
        intuition congruence.
    + intros [Ho Hl]. now apply score_lowest_tag.
  - split.
    + intros E i Hi.
      destruct (QL_cases i Hi) as [[-> Q]|[[-> Q]|[[-> Q]|[-> Q]]]]; rewrite Q;
        intuition congruence.
    + intros H. apply score_no_tag. intros s' i E Hi. injection E as <-. auto.
Qed.

Lemma quality_score_characterised_witness :
  getQualityScore (JStr "FL ql2 2019") = 2 <->
  occurs_ci (QL 2) "FL ql2 2019" /\
  forall j, 0 <= j < 2 -> ~ occurs_ci (QL j) "FL ql2 2019".
Proof.
  apply (proj1 (quality_score_characterised "FL ql2 2019") 2). lia.
Defined.

(** X4: text around a label never worsens its score: the score of
    [a ++ s ++ b] is at most the score of [s]. *)
Theorem quality_score_surrounding_text (a s b : string) :
  getQualityScore (JStr (a +:+ s +:+ b)) <= getQualityScore (JStr s).
Proof.
  pose proof (score_by_first_match (JStr s)) as K.
  pose proof (score_by_first_match (JStr (a +:+ s +:+ b))) as K'.
  rewrite label_str in K, K'. cbv zeta in K, K'.
  pose proof (occurs_ci_extend "QL0" a s b) as E0.
  pose proof (occurs_ci_extend "QL1" a s b) as E1.
  pose proof (occurs_ci_extend "QL2" a s b) as E2.
  pose proof (occurs_ci_extend "QL3" a s b) as E3.
  destruct K as [K|[K|[K|[K|K]]]], K' as [K'|[K'|[K'|[K'|K']]]];
    destruct K as (? & K); destruct K' as (? & K');
    repeat match goal with H : _ /\ _ |- _ => destruct H end;
    try lia; exfalso; tauto.
Qed.

End QualityScoreMore.

(** ** Ranking: what holds for every input *)

Lemma StronglySorted_weaken {A : Type} (R S : A -> A -> Prop) (l : list A) :
  (forall x y, In x l -> In y l -> R x y -> S x y) ->
  StronglySorted R l -> StronglySorted S l.
Proof.
  induction l as [|a l IH]; intros H Hs; [constructor |].
  inversion Hs as [|? ? Hs' Ha]; subst. constructor.
  - apply IH; [|exact Hs']. intros x y Hx Hy. apply H; now right.
  - rewrite List.Forall_forall in Ha |- *. intros y Hy.
    apply H; [now left | now right | now apply Ha].
Qed.

Section RankingMore.
Variable Date_parse : string -> number.

Local Abbreviation timestamp := (timestamp Date_parse).
Local Abbreviation comparator := (comparator Date_parse).
Local Abbreviation dated := (dated Date_parse).
Local Abbreviation outranks := (outranks Date_parse).
Local Abbreviation sorted := (sorted Date_parse).
Local Abbreviation best := (best Date_parse).
Local Abbreviation handleSearchComplete := (handleSearchComplete Date_parse).

Lemma comparator_by_score (a b : descriptor) :
  score a <> score b -> comparator a b = Num (score a - score b).
Proof.
  intros H. unfold Ranker.comparator. fold (score a) (score b).
  destruct (score a - score b =? 0) eqn:E; [|reflexivity].
  apply Z.eqb_eq in E. lia.
Qed.

Lemma comparator_by_date (a b : descriptor) :
  score a = score b -> comparator a b = sub (timestamp b) (timestamp a).
Proof.
  intros H. unfold Ranker.comparator. fold (score a) (score b).
  now rewrite H, Z.sub_diag.
Qed.

(** X5: sorting only rearranges: the sorted list is a permutation of the
    results, with the same length and the same elements, whatever the
    quality labels and dates are. *)
Theorem sorted_is_permutation (results : list descriptor) :
  Permutation (sorted results) results /\
  length (sorted results) = length results /\
  forall d, In d (sorted results) <-> In d results.
Proof.
  unfold Ranker.sorted. split; [apply Array_sort_perm |].
  split; [apply Array_sort_length | intros d; apply Array_sort_In].
Qed.

(** X6: an element is selected exactly when there is a result, and the
    selected element is one of the results. *)
Theorem best_is_a_result (results : list descriptor) :
  (best results = None <-> results = []) /\
  (forall b, best results = Some b -> In b results).
Proof.
  unfold Ranker.best, Ranker.sorted. split.
  - split.
    + intros H. destruct (Array_sort comparator results) as [|x r] eqn:E;
        [|discriminate].
      apply (f_equal (@length descriptor)) in E.
      rewrite Array_sort_length in E. now destruct results.
    + now intros ->.
  - intros b H. apply (Array_sort_In comparator).
    destruct (Array_sort comparator results) as [|x r]; [discriminate |].
    injection H as ->. now left.
Qed.

(** X7: quality comes before dates in the comparator, for every pair
    and whatever the dates are, missing or not dates at all.  When the
    scores differ the result is the difference of the scores, a number
    and never NaN, so the descriptor of better quality compares as
    first, both ways round.  NaN arises only between descriptors of
    equal score, one of which has a timestamp that is NaN. *)
Theorem quality_decides_the_comparator (a b : descriptor) :
  (score a <> score b -> comparator a b = Num (score a - score b)) /\
  (score a < score b ->
   SortCompare comparator a b < 0 /\ 0 < SortCompare comparator b a) /\
  (comparator a b = NaN ->
   score a = score b /\ (timestamp a = NaN \/ timestamp b = NaN)).
Proof.
  split; [exact (comparator_by_score a b) |]. split.
  - intros H. unfold SortCompare.
    rewrite (comparator_by_score a b), (comparator_by_score b a) by lia. lia.
  - intros H. destruct (Z.eq_dec (score a) (score b)) as [E|E].
    + split; [exact E |]. rewrite (comparator_by_date a b E) in H.
      destruct (timestamp a), (timestamp b); simpl in H;
        try discriminate; auto.
    + rewrite (comparator_by_score a b E) in H. discriminate.
Qed.

(** X8: when every result resolves to a timestamp (its date is absent
    or parseable), the sorted list is in ranking order throughout: each
    element has a better quality than every later element, or the same
    quality and a timestamp at least as late. *)
Theorem sorted_in_rank_order (results : list descriptor) :
  Forall dated results -> StronglySorted outranks (sorted results).
Proof.
  intros Hd.
  apply (StronglySorted_weaken (precedes comparator)).
  - intros x y Hx Hy H. rewrite List.Forall_forall in Hd.
    apply SortCompare_outranks; [| |exact H]; apply Hd;
      now apply (Array_sort_In comparator).
  - apply (Array_sort_sorted comparator dated (comparator_total Date_parse)
             (comparator_trans Date_parse)).
    exact Hd.
Qed.

(** X9: what [handleSearchComplete] does, for every control and event:
    it logs the results once, first; it then loads at most one dataset,
    which is one of the results; and it loads nothing when there is no
    control or the control has no [loadDataset]. *)
Theorem search_complete_effects (ctl : option control) (ev : option event) :
  let log := ConsoleLog "LiDAR search complete" (event_payload ev) in
  (handleSearchComplete ctl ev = [log] \/
   exists b, handleSearchComplete ctl ev = [log; LoadDataset b] /\
             In b (event_payload ev) /\
             best (event_payload ev) = Some b /\
             ctl = Some {| loadDataset := true |}) /\
  (ctl = None \/ ctl = Some {| loadDataset := false |} ->
   handleSearchComplete ctl ev = [log]).
Proof.
  intros log. unfold Ranker.handleSearchComplete. fold log.
  destruct (length (event_payload ev) =? 0)%nat; [split; [now left | trivial] |].
  destruct (best (event_payload ev)) as [b|] eqn:Hb.
  - destruct ctl as [[[|]]|].
    + split; [|intros [H|H]; discriminate].
      right. exists b. repeat split; trivial.
      now apply (proj2 (best_is_a_result _)).
    + split; [now left | trivial].
    + split; [now left | trivial].
  - split; [now left | trivial].
Qed.

(** X10: a resolved timestamp is NaN or lies within the range of time
    values, 8.64e15 milliseconds either side of the epoch, whatever the
    engine's parser returns. *)
Theorem timestamp_in_range (d : descriptor) (t : Z) :
  timestamp d = Num t -> - maxTime <= t <= maxTime.
Proof.
  unfold Ranker.timestamp, getTime, TimeClip, maxTime.
  destruct (or_else _ _) as [| |[|]|z|s]; try (intros [= <-]; lia).
  - destruct (Z.abs z <=? 8640000000000000) eqn:E; [|discriminate].
    intros [= <-]. apply Z.leb_le in E. lia.
  - destruct (Date_parse s) as [z|]; [|discriminate].
    destruct (Z.abs z <=? 8640000000000000) eqn:E; [|discriminate].
    intros [= <-]. apply Z.leb_le in E. lia.
Qed.

(** X11: swapping the arguments of the comparator negates its result;
    NaN stays NaN. *)
Theorem comparator_antisymmetric (a b : descriptor) :
  comparator b a = negate (comparator a b).
Proof.
  destruct (Z.eq_dec (score a) (score b)) as [E|E].
  - rewrite (comparator_by_date a b E), (comparator_by_date b a (eq_sym E)).
    destruct (timestamp a), (timestamp b); simpl; trivial. f_equal. lia.
  - rewrite (comparator_by_score a b E), (comparator_by_score b a) by congruence.
    simpl. f_equal. lia.
Qed.

(** X12: [event.detail.results], when present, is what the handler
    works on, even when it is empty: [event.results] is then never
    looked at, and an empty [detail.results] means that nothing is
    loaded. *)
Theorem detail_results_take_precedence
    (ctl : option control) (rs : list descriptor)
    (other : option (list descriptor)) :
  let ev r := Some {| event_detail := Some {| detail_results := Some rs |};
                      event_results := r |} in
  handleSearchComplete ctl (ev other) = handleSearchComplete ctl (ev None) /\
  (rs = [] ->
   handleSearchComplete ctl (ev other) = [ConsoleLog "LiDAR search complete" []]).
Proof.
  split; [reflexivity |]. now intros ->.
Qed.

End RankingMore.

Lemma search_complete_effects_witness :
  Ranker.handleSearchComplete Date_parse_iso (Some {| loadDataset := false |})
    (Some {| event_detail := None;
             event_results := Some [dataset "QL1" "2020-06-01" "a"] |})
  = [ConsoleLog "LiDAR search complete" [dataset "QL1" "2020-06-01" "a"]].
Proof.
  apply (search_complete_effects Date_parse_iso). now right.
Defined.

Lemma detail_results_take_precedence_witness :
  Ranker.handleSearchComplete Date_parse_iso (Some {| loadDataset := true |})
    (Some {| event_detail := Some {| detail_results := Some [] |};
             event_results := Some [dataset "QL0" "2021-01-01" "a"] |})
  = [ConsoleLog "LiDAR search complete" []].
Proof.
  apply (detail_results_take_precedence Date_parse_iso). reflexivity.
Defined.

Lemma best_is_a_result_witness :
  In (dataset "QL0" "2021-01-01" "c")
     [dataset "QL2" "2020-01-01" "a"; dataset "QL0" "2021-01-01" "c"].
Proof.
  apply (proj2 (best_is_a_result Date_parse_iso _)). reflexivity.
Defined.

Lemma quality_decides_the_comparator_witness :
  SortCompare (comparator Date_parse_iso)
    (dataset "QL1" "unknown" "x") (dataset "QL3" "2021-01-01" "y") < 0 /\
  0 < SortCompare (comparator Date_parse_iso)
        (dataset "QL3" "2021-01-01" "y") (dataset "QL1" "unknown" "x").
Proof.
  apply (proj1 (proj2 (quality_decides_the_comparator Date_parse_iso
                         (dataset "QL1" "unknown" "x")
                         (dataset "QL3" "2021-01-01" "y")))).
  reflexivity.
Defined.

Lemma sorted_in_rank_order_witness :
  StronglySorted (outranks Date_parse_iso)
    (sorted Date_parse_iso
       [dataset "QL2" "2020-01-01" "a"; dataset "QL0" "2019-01-01" "b";
        {| qualityLevel := JStr "QL0"; publicationDate := JUndefined;
           date := JUndefined; name := "c" |}]).
Proof.
  apply sorted_in_rank_order.
  repeat constructor; eexists; reflexivity.
Defined.

Lemma timestamp_in_range_witness :
  - maxTime <= 1577836800000 <= maxTime.
Proof.
  apply (timestamp_in_range Date_parse_iso (dataset "QL2" "2020-01-01" "a")).
  reflexivity.
Defined.

(** ** Styling: what is touched, and how the two operations compose *)

Section StyleMore.

Lemma applyColorScheme_lookup_any (ids : list string) (m : gmap string layer)
    (scheme : string) (k : string) :
  applyColorScheme ids m scheme !! k =
    match scheme_paint scheme with
    | Some e =>
        if decide (k ∈ ids) then with_paint "point-color" e <$> m !! k
        else m !! k
    | None => m !! k
    end.
Proof.
  destruct (scheme_paint scheme) as [e|] eqn:E.
  - now apply applyColorScheme_lookup.
  - now rewrite applyColorScheme_unknown.
Qed.

(** X13: styling never creates or removes a layer, and never touches a
    layer outside the layer set.  Ids of the layer set that the map does
    not have are skipped: the map has the same layers before and after,
    for both operations. *)
Theorem styling_keeps_the_layers
    (ids : list string) (m : gmap string layer) (scheme : string) (t : Q) :
  (forall k, is_Some (applyColorScheme ids m scheme !! k) <-> is_Some (m !! k)) /\
  (forall k, is_Some (applySeaLevelFilter ids m t !! k) <-> is_Some (m !! k)) /\
  (forall k, k ∉ ids ->
             applyColorScheme ids m scheme !! k = m !! k /\
             applySeaLevelFilter ids m t !! k = m !! k).
Proof.
  split; [|split].
  - intros k. rewrite applyColorScheme_lookup_any.
    destruct (scheme_paint scheme); [|reflexivity].
    destruct (decide (k ∈ ids)); [|reflexivity].
    now rewrite fmap_is_Some.
  - intros k. rewrite applySeaLevelFilter_lookup.
    destruct (decide (k ∈ ids)); [|reflexivity].
    now rewrite fmap_is_Some.
  - intros k Hk. split.
    + now apply applyColorScheme_frame.
    + now apply applySeaLevelFilter_frame.
Qed.

Lemma styling_keeps_the_layers_witness :
  applyColorScheme ["lidar-1"; "lidar-9"] sample_map "rgb" !! "noaa-slr-fill"
    = sample_map !! "noaa-slr-fill" /\
  applySeaLevelFilter ["lidar-1"; "lidar-9"] sample_map 2.5 !! "noaa-slr-fill"
    = sample_map !! "noaa-slr-fill".
Proof.
  apply (proj2 (proj2 (styling_keeps_the_layers ["lidar-1"; "lidar-9"]
                         sample_map "rgb" 2.5)) "noaa-slr-fill").
  intros H. apply elem_of_cons in H as [H|H]; [discriminate |].
  apply elem_of_cons in H as [H|H]; [discriminate |].
  now apply elem_of_nil in H.
Defined.

(** X14: colouring and filtering are independent.  They commute, for any
    two layer sets; colouring keeps every layer's filter and filtering
    keeps every layer's paint. *)
Theorem color_and_filter_commute
    (ids ids' : list string) (m : gmap string layer) (scheme : string) (t : Q) :
  applyColorScheme ids (applySeaLevelFilter ids' m t) scheme =
    applySeaLevelFilter ids' (applyColorScheme ids m scheme) t /\
  (forall k, layer_filter <$> applyColorScheme ids m scheme !! k
             = layer_filter <$> m !! k) /\
  (forall k, layer_paint <$> applySeaLevelFilter ids' m t !! k
             = layer_paint <$> m !! k).
Proof.
  split; [|split].
  - apply map_eq. intros k.
    rewrite applyColorScheme_lookup_any, !applySeaLevelFilter_lookup,
      applyColorScheme_lookup_any.
    destruct (scheme_paint scheme) as [e|]; [|reflexivity].
    destruct (decide (k ∈ ids)), (decide (k ∈ ids')), (m !! k); reflexivity.
  - intros k. rewrite applyColorScheme_lookup_any.
    destruct (scheme_paint scheme) as [e|]; [|reflexivity].
    destruct (decide (k ∈ ids)), (m !! k); reflexivity.
  - intros k. rewrite applySeaLevelFilter_lookup.
    destruct (decide (k ∈ ids')), (m !! k); reflexivity.
Qed.

(** X15: a colour scheme changes nothing but the paint property
    [point-color]: the layer's type, its filter and its other paint
    properties stay as they are. *)
Theorem color_scheme_changes_point_color_only
    (ids : list string) (m : gmap string layer) (scheme : string)
    (k : string) (l l' : layer) :
  m !! k = Some l ->
  applyColorScheme ids m scheme !! k = Some l' ->
  layer_type l' = layer_type l /\
  layer_filter l' = layer_filter l /\
  forall name, name <> "point-color" ->
               layer_paint l' !! name = layer_paint l !! name.
Proof.
  intros Hl. rewrite applyColorScheme_lookup_any, Hl.
  destruct (scheme_paint scheme) as [e|];
    [destruct (decide (k ∈ ids))|]; simpl; intros [= <-]; repeat split; trivial.
  intros name Hn. simpl. now rewrite lookup_insert_ne.
Qed.

Lemma color_scheme_changes_point_color_only_witness :
  layer_type (with_paint "point-color" rgb_paint
                (sample_layer "circle" (Some (EArr [EStr "has"; EStr "Z"]))))
    = "circle" /\
  layer_filter (with_paint "point-color" rgb_paint
                  (sample_layer "circle" (Some (EArr [EStr "has"; EStr "Z"]))))
    = Some (EArr [EStr "has"; EStr "Z"]) /\
  forall name, name <> "point-color" ->
    layer_paint (with_paint "point-color" rgb_paint
                   (sample_layer "circle" (Some (EArr [EStr "has"; EStr "Z"]))))
      !! name = (∅ : gmap string expr) !! name.
Proof.
  apply (color_scheme_changes_point_color_only ["lidar-2"] sample_map "rgb"
           "lidar-2" (sample_layer "circle" (Some (EArr [EStr "has"; EStr "Z"]))));
    reflexivity.
Defined.

(** X16: only the set of ids matters.  Two layer sets with the same
    elements, in any order and with any repetitions, give the same map,
    for both operations. *)
Theorem styling_depends_on_the_id_set
    (ids ids' : list string) (m : gmap string layer) (scheme : string) (t : Q) :
  (forall k, k ∈ ids <-> k ∈ ids') ->
  applyColorScheme ids m scheme = applyColorScheme ids' m scheme /\
  applySeaLevelFilter ids m t = applySeaLevelFilter ids' m t.
Proof.
  intros H. split; apply map_eq; intros k.
  - rewrite !applyColorScheme_lookup_any.
    destruct (scheme_paint scheme); [|reflexivity].
    destruct (decide (k ∈ ids)) as [Hk|Hk], (decide (k ∈ ids')) as [Hk'|Hk'];
      try reflexivity; exfalso; apply H in Hk || apply Hk, H; auto.
  - rewrite !applySeaLevelFilter_lookup.
    destruct (decide (k ∈ ids)) as [Hk|Hk], (decide (k ∈ ids')) as [Hk'|Hk'];
      try reflexivity; exfalso; apply H in Hk || apply Hk, H; auto.
Qed.

Lemma styling_depends_on_the_id_set_witness :
  applyColorScheme ["lidar-1"; "lidar-2"; "lidar-1"] sample_map "intensity"
    = applyColorScheme ["lidar-2"; "lidar-1"] sample_map "intensity" /\
  applySeaLevelFilter ["lidar-1"; "lidar-2"; "lidar-1"] sample_map 0.5
    = applySeaLevelFilter ["lidar-2"; "lidar-1"] sample_map 0.5.
Proof.
  apply styling_depends_on_the_id_set.
  intros k. rewrite !elem_of_cons, !elem_of_nil. tauto.
Defined.

(** X17: the last threshold wins: filtering at [t1] and then at [t2]
    leaves the map as filtering at [t2] alone. *)
Theorem last_threshold_wins
    (ids : list string) (m : gmap string layer) (t1 t2 : Q) :
  applySeaLevelFilter ids (applySeaLevelFilter ids m t1) t2
    = applySeaLevelFilter ids m t2.
Proof.
  apply map_eq. intros k. rewrite !applySeaLevelFilter_lookup.
  destruct (decide (k ∈ ids)); [|reflexivity].
  now destruct (m !! k).
Qed.

(** X18: for every id of the layer set that the map has, the scheme
    [intensity] sets [point-color] to the linear interpolation over
    attribute Intensity from 0 ([#212121]) to 255 ([#f5f5f5]), and the
    scheme [rgb] sets it to the composition of the attributes Red, Green
    and Blue. *)
Theorem intensity_and_rgb_expressions
    (ids : list string) (m : gmap string layer) (id : string) (l : layer) :
  id ∈ ids -> m !! id = Some l ->
  (exists l',
      applyColorScheme ids m "intensity" !! id = Some l' /\
      layer_paint l' !! "point-color" =
        Some (EArr [EStr "interpolate"; EArr [EStr "linear"];
                    EArr [EStr "get"; EStr "Intensity"];
                    ENum 0; EStr "#212121"; ENum 255; EStr "#f5f5f5"])) /\
  (exists l',
      applyColorScheme ids m "rgb" !! id = Some l' /\
      layer_paint l' !! "point-color" =
        Some (EArr [EStr "rgb"; EArr [EStr "get"; EStr "Red"];
                    EArr [EStr "get"; EStr "Green"];
                    EArr [EStr "get"; EStr "Blue"]])) /\
  interpolate_linear intensity_paint =
    Some ("Intensity", [(0%Q, "#212121"); (255%Q, "#f5f5f5")]).
Proof.
  intros Hin Hl. split; [|split; [|reflexivity]].
  - exists (with_paint "point-color" intensity_paint l).
    rewrite (applyColorScheme_lookup ids m "intensity" intensity_paint id eq_refl).
    rewrite decide_True, Hl by exact Hin.
    split; [reflexivity |]. unfold with_paint. simpl. apply lookup_insert_eq.
  - exists (with_paint "point-color" rgb_paint l).
    rewrite (applyColorScheme_lookup ids m "rgb" rgb_paint id eq_refl).
    rewrite decide_True, Hl by exact Hin.
    split; [reflexivity |]. unfold with_paint. simpl. apply lookup_insert_eq.
Qed.

Lemma intensity_and_rgb_expressions_witness :
  exists l',
    applyColorScheme ["lidar-1"; "lidar-2"] sample_map "rgb" !! "lidar-2"
      = Some l' /\
    layer_paint l' !! "point-color" =
      Some (EArr [EStr "rgb"; EArr [EStr "get"; EStr "Red"];
                  EArr [EStr "get"; EStr "Green"];
                  EArr [EStr "get"; EStr "Blue"]]).
Proof.
  apply (intensity_and_rgb_expressions ["lidar-1"; "lidar-2"] sample_map
           "lidar-2" (sample_layer "circle" (Some (EArr [EStr "has"; EStr "Z"])))).
  - apply list_elem_of_further, list_elem_of_here.
  - reflexivity.
Defined.

(** X19: the selector and [applyColorScheme] agree.  Every option of the
    selector (a key of [COLOR_RAMPS]) has a branch in [applyColorScheme],
    so choosing it paints every layer of the layer set that the map has;
    every branch is offered as an option; the initial scheme is one of
    the options. *)
Theorem every_option_paints :
  (forall key, In key (List.map fst schemeOptions) <-> recognized key) /\
  (forall key (ids : list string) (m : gmap string layer) id l,
      In key (List.map fst schemeOptions) ->
      id ∈ ids -> m !! id = Some l ->
      exists l' e,
        applyColorScheme ids m key !! id = Some l' /\
        layer_paint l' !! "point-color" = Some e) /\
  In initialColorScheme (List.map fst schemeOptions).
Proof.
  split; [|split].
  - intros key. unfold recognized. simpl. tauto.
  - intros key ids m id l Hk Hin Hl.
    assert (R : recognized key) by (unfold recognized; simpl in Hk |- *; tauto).
    apply scheme_paint_recognized in R as [e He].
    exists (with_paint "point-color" e l), e.
    rewrite (applyColorScheme_lookup ids m key e id He).
    rewrite decide_True, Hl by exact Hin.
    split; [reflexivity |]. unfold with_paint. simpl. apply lookup_insert_eq.
  - simpl. tauto.
Qed.

Lemma every_option_paints_witness :
  exists l' e,
    applyColorScheme ["lidar-1"] sample_map "classification" !! "lidar-1"
      = Some l' /\
    layer_paint l' !! "point-color" = Some e.
Proof.
  apply (proj1 (proj2 every_option_paints) "classification" ["lidar-1"]
           sample_map "lidar-1" (sample_layer "circle" None)).
  - simpl. tauto.
  - apply list_elem_of_here.
  - reflexivity.
Defined.

End StyleMore.

(** ** Basemap toggle and automatic search *)

Section ControlsMore.

Lemma toggles_S (n : nat) (mode : string) :
  toggles (S n) mode = handleToggleBasemap (toggles n mode).
Proof. reflexivity. Qed.

Lemma toggle_cases (mode : string) :
  (mode = "satellite" /\ handleToggleBasemap mode = "lidar") \/
  (mode <> "satellite" /\ handleToggleBasemap mode = "satellite").
Proof.
  unfold handleToggleBasemap. destruct (String.eqb mode "satellite") eqn:E.
  - left. now apply String.eqb_eq in E.
  - right. now apply String.eqb_neq in E.
Qed.

(** X20: the toggle never leads back to the initial basemap.  From any
    mode, after one click or more the mode is [satellite] or [lidar],
    so the style is never the Positron style again. *)
Theorem toggle_never_returns_to_positron (n : nat) (mode : string) :
  (toggles (S n) mode = "satellite" \/ toggles (S n) mode = "lidar") /\
  baseStyle (toggles (S n) mode) <> POSITRON_STYLE.
Proof.
  assert (H : toggles (S n) mode = "satellite" \/ toggles (S n) mode = "lidar").
  { rewrite toggles_S. destruct (toggle_cases (toggles n mode)) as [[_ ->]|[_ ->]]; auto. }
  split; [exact H |]. destruct H as [-> | ->]; discriminate.
Qed.

(** X21: the toggle alternates.  Starting from the initial mode, an odd
    number of clicks shows the satellite style and an even, positive
    number the LiDAR-only style; from [satellite] or [lidar], two clicks
    give the mode back. *)
Theorem toggle_alternates (n : nat) :
  baseStyle (toggles (S n) initialBasemapMode) =
    (if Nat.even n then SATELLITE_STYLE else LIDAR_ONLY_STYLE) /\
  toggles 2 "satellite" = "satellite" /\
  toggles 2 "lidar" = "lidar".
Proof.
  split; [|split; reflexivity].
  assert (H : toggles (S n) initialBasemapMode =
              if Nat.even n then "satellite" else "lidar").
  { induction n as [|n IH]; [reflexivity |].
    rewrite toggles_S, IH, Nat.even_succ, <- Nat.negb_even.
    destruct (Nat.even n); reflexivity. }
  rewrite H. destruct (Nat.even n); reflexivity.
Qed.



End ControlsMore.

(** ** Load completion *)

Section LoadCompleteMore.

Lemma with_layers_same (m : mapInstance) : with_layers (map_layers m) m = m.
Proof. now destruct m. Qed.

Lemma lidarCircleIds_spec (m : mapInstance) (k : string) :
  k ∈ lidarCircleIds m <->
  k ∈ map_order m /\
  exists l, map_layers m !! k = Some l /\
            layer_type l = "circle" /\ occurs "lidar" k.
Proof.
  unfold lidarCircleIds, getStyleLayers.
  rewrite list_elem_of_In, in_map_iff. split.
  - intros ([id l] & <- & Hf). apply filter_In in Hf as [Hin Hc].
    apply list_elem_of_In, list_elem_of_omap in Hin as (x & Hx & Hl).
    destruct (map_layers m !! x) as [l'|] eqn:E; [|discriminate].
    simpl in Hl. injection Hl as -> ->.
    unfold isLidarCircle in Hc. simpl in Hc.
    apply andb_true_iff in Hc as [Ht Hi].
    apply String.eqb_eq in Ht. apply includes_occurs in Hi.
    split; [exact Hx |]. now exists l.
  - intros (Hk & l & Hl & Ht & Hi). exists (k, l). split; [reflexivity |].
    apply filter_In. split.
    + apply list_elem_of_In, list_elem_of_omap. exists k.
      split; [exact Hk |]. now rewrite Hl.
    + unfold isLidarCircle. simpl. apply andb_true_iff. split.
      * now apply String.eqb_eq.
      * now apply includes_occurs.
Qed.

(** The discovered ids depend on the drawing order and on the types of
    the layers only. *)
Lemma lidarCircleIds_ext (m m' : mapInstance) :
  map_order m = map_order m' ->
  (forall k, k ∈ map_order m ->
             layer_type <$> map_layers m !! k = layer_type <$> map_layers m' !! k) ->
  lidarCircleIds m = lidarCircleIds m'.
Proof.
  unfold lidarCircleIds, getStyleLayers. intros <- H.
  revert H. generalize (map_order m) as order.
  induction order as [|id order IH]; intros H; [reflexivity |].
  assert (Hid := H id (list_elem_of_here _ _)).
  assert (IH' := IH (fun k Hk => H k (list_elem_of_further _ _ _ Hk))).
  cbn [omap list_omap].
  destruct (map_layers m !! id) as [l|], (map_layers m' !! id) as [l'|];
    cbn [fmap option_fmap option_map] in *; try discriminate; [|exact IH'].
  injection Hid as Hid.
  assert (Hc : isLidarCircle (id, l) = isLidarCircle (id, l'))
    by (unfold isLidarCircle; simpl; now rewrite Hid).
  cbn [List.filter]. rewrite Hc.
  destruct (isLidarCircle (id, l')); cbn [List.map fst]; now rewrite IH'.
Qed.

Lemma styled_layer_type (ids ids' : list string) (ls : gmap string layer)
    (scheme : string) (t : Q) (k : string) :
  layer_type <$> applySeaLevelFilter ids' (applyColorScheme ids ls scheme) t !! k
  = layer_type <$> ls !! k.
Proof.
  rewrite applySeaLevelFilter_lookup, applyColorScheme_lookup_any.
  destruct (scheme_paint scheme), (decide (k ∈ ids')), (decide (k ∈ ids)),
    (ls !! k); reflexivity.
Qed.

(** X23: on load completion both instructions reach every layer of the
    new layer set that the map has: the layer gets the paint of the
    current scheme and, on top of it, the filter of the current
    threshold.  Layers outside the layer set, the drawing order and the
    sources are left as they are. *)
Theorem load_complete_styles_the_layer_set
    (scheme : string) (e : expr) (t : Q) (m : mapInstance)
    (old : list string) (ev : option loadEvent) :
  scheme_paint scheme = Some e ->
  exists ids m',
    handleLoadComplete scheme t (Some m) old ev = (ids, Some m') /\
    map_order m' = map_order m /\
    map_sources m' = map_sources m /\
    map_layer_source m' = map_layer_source m /\
    (forall k l, k ∈ ids -> map_layers m !! k = Some l ->
       map_layers m' !! k =
         Some (with_filter (seaLevelFilter t) (with_paint "point-color" e l))) /\
    (forall k, k ∉ ids -> map_layers m' !! k = map_layers m !! k).
Proof.
  intros He. unfold handleLoadComplete.
  set (ids := match event_layerIds ev with
              | Some i => i
              | None => lidarCircleIds m
              end).
  eexists ids, _. split; [reflexivity |]. repeat split; simpl.
  - intros k l Hk Hl.
    rewrite applySeaLevelFilter_lookup, (applyColorScheme_lookup _ _ _ e _ He).
    now rewrite !decide_True, Hl by exact Hk.
  - intros k Hk.
    rewrite applySeaLevelFilter_lookup, (applyColorScheme_lookup _ _ _ e _ He).
    now rewrite !decide_False by exact Hk.
Qed.

Lemma load_complete_styles_the_layer_set_witness :
  exists ids m',
    handleLoadComplete "rgb" 1.5 (Some sample_instance) []
      (Some {| load_detail := None; load_layerIds := Some ["usgs-lidar-2"] |})
    = (ids, Some m') /\
    map_order m' = map_order sample_instance /\
    map_sources m' = map_sources sample_instance /\
    map_layer_source m' = map_layer_source sample_instance /\
    (forall k l, k ∈ ids -> map_layers sample_instance !! k = Some l ->
       map_layers m' !! k =
         Some (with_filter (seaLevelFilter 1.5)
                 (with_paint "point-color" rgb_paint l))) /\
    (forall k, k ∉ ids -> map_layers m' !! k = map_layers sample_instance !! k).
Proof.
  apply (load_complete_styles_the_layer_set "rgb" rgb_paint). reflexivity.
Defined.

(** X24: when the event names no layers, the layer set is discovered
    from the style: exactly the layers of type [circle] whose id
    contains ["lidar"] (in this letter case), in drawing order.  The
    previous layer set plays no part: the set is replaced, not merged. *)
Theorem load_complete_discovers_lidar_circles
    (scheme : string) (t : Q) (m : mapInstance)
    (old : list string) (ev : option loadEvent) :
  event_layerIds ev = None ->
  fst (handleLoadComplete scheme t (Some m) old ev) = lidarCircleIds m /\
  (forall k, k ∈ lidarCircleIds m <->
     k ∈ map_order m /\
     exists l, map_layers m !! k = Some l /\
               layer_type l = "circle" /\ occurs "lidar" k) /\
  (forall l, layer_type l <> "circle" ->
     forall k, map_layers m !! k = Some l -> k ∉ lidarCircleIds m).
Proof.
  intros Hev. unfold handleLoadComplete. rewrite Hev. simpl.
  split; [reflexivity |]. split; [apply lidarCircleIds_spec |].
  intros l Hl k Hk [_ (l' & Hl' & Ht & _)]%lidarCircleIds_spec. congruence.
Qed.

Lemma load_complete_discovers_lidar_circles_witness :
  fst (handleLoadComplete "elevation" 1.5 (Some sample_instance)
         ["stale-layer"] (Some {| load_detail := None; load_layerIds := None |}))
  = ["usgs-lidar-1"; "usgs-lidar-2"].
Proof.
  apply (load_complete_discovers_lidar_circles "elevation" 1.5 sample_instance).
  reflexivity.
Defined.

(** X25: handling the same load event again changes nothing: the second
    run returns the layer set and the map of the first. *)
Theorem load_complete_idempotent
    (scheme : string) (t : Q) (m : mapInstance)
    (old : list string) (ev : option loadEvent) :
  let first := handleLoadComplete scheme t (Some m) old ev in
  handleLoadComplete scheme t (snd first) (fst first) ev = first.
Proof.
  unfold handleLoadComplete. simpl.
  set (ids := match event_layerIds ev with
              | Some i => i
              | None => lidarCircleIds m
              end).
  set (ls := applySeaLevelFilter ids (applyColorScheme ids (map_layers m) scheme) t).
  assert (Hids : match event_layerIds ev with
                 | Some i => i
                 | None => lidarCircleIds (with_layers ls m)
                 end = ids).
  { unfold ids. destruct (event_layerIds ev); [reflexivity |].
    apply lidarCircleIds_ext; [reflexivity |].
    intros k _. simpl. unfold ls. apply styled_layer_type. }
  rewrite Hids. f_equal. f_equal. unfold with_layers. simpl. f_equal.
  unfold ls. apply map_eq. intros k.
  repeat (rewrite applySeaLevelFilter_lookup
          || rewrite applyColorScheme_lookup_any).
  destruct (scheme_paint scheme) as [e|];
    destruct (decide (k ∈ ids)), (map_layers m !! k); simpl; trivial.
  unfold with_filter, with_paint. simpl. now rewrite insert_insert_eq.
Qed.

(** X26: an event that carries an empty array of layer ids switches the
    discovery off: the layer set becomes empty and no layer is styled,
    even when the map has LiDAR point layers.  Without a map nothing
    happens and the layer set is kept. *)
Theorem load_complete_empty_ids
    (scheme : string) (t : Q) (m : mapInstance)
    (old : list string) (ev : option loadEvent) :
  (event_layerIds ev = Some [] ->
   handleLoadComplete scheme t (Some m) old ev = ([], Some m)) /\
  handleLoadComplete scheme t None old ev = (old, None).
Proof.
  split; [|reflexivity].
  intros H. unfold handleLoadComplete. rewrite H.
  unfold applyColorScheme, applySeaLevelFilter. simpl.
  now rewrite with_layers_same.
Qed.

Lemma load_complete_empty_ids_witness :
  handleLoadComplete "elevation" 1.5 (Some sample_instance) ["usgs-lidar-1"]
    (Some {| load_detail := Some {| detail_layerIds := Some [] |};
             load_layerIds := Some ["usgs-lidar-1"] |})
  = ([], Some sample_instance).
Proof.
  apply (proj1 (load_complete_empty_ids "elevation" 1.5 sample_instance
                  ["usgs-lidar-1"] _)).
  reflexivity.
Defined.

End LoadCompleteMore.

(** ** The sea-level-rise overlay *)

Section OverlayMore.

Lemma addSlrOverlay_layers (fs : option (list feature)) (m : mapInstance)
    (k : string) :
  map_layers (addSlrOverlay fs m) !! k =
    match map_layers m !! k with
    | Some l => Some l
    | None =>
        if decide (k = "noaa-slr-fill") then Some slr_fill_layer
        else if decide (k = "noaa-slr-outline") then Some slr_outline_layer
        else None
    end.
Proof.
  unfold addSlrOverlay, getSource, getLayer, addSource, addLayer.
  destruct (map_sources m !! "noaa-slr") eqn:S; simpl;
    destruct (map_layers m !! "noaa-slr-fill") eqn:F; simpl;
    rewrite ?lookup_insert_ne by discriminate;
    destruct (map_layers m !! "noaa-slr-outline") eqn:O; simpl;
    destruct (map_layers m !! k) eqn:K;
    repeat case_decide; subst;
    rewrite ?lookup_insert_eq, ?lookup_insert_ne by congruence;
    try rewrite ?lookup_insert_eq, ?lookup_insert_ne by congruence;
    try congruence; reflexivity.
Qed.

Lemma addSlrOverlay_sources (fs : option (list feature)) (m : mapInstance)
    (k : string) :
  map_sources (addSlrOverlay fs m) !! k =
    match map_sources m !! k with
    | Some s => Some s
    | None =>
        if decide (k = "noaa-slr") then Some (GeoJSON (floridaFeatures fs))
        else None
    end.
Proof.
  unfold addSlrOverlay, getSource, getLayer, addSource, addLayer.
  destruct (map_sources m !! "noaa-slr") eqn:S; simpl;
    destruct (map_layers m !! "noaa-slr-fill") eqn:F; simpl;
    rewrite ?lookup_insert_ne by discriminate;
    destruct (map_layers m !! "noaa-slr-outline") eqn:O; simpl;
    destruct (map_sources m !! k) eqn:K;
    repeat case_decide; subst;
    rewrite ?lookup_insert_eq, ?lookup_insert_ne by congruence;
    try congruence; reflexivity.
Qed.

Lemma addSlrOverlay_order (fs : option (list feature)) (m : mapInstance) :
  map_order (addSlrOverlay fs m) =
    map_order m
    ++ match map_layers m !! "noaa-slr-fill" with
       | Some _ => []
       | None => ["noaa-slr-fill"]
       end
    ++ match map_layers m !! "noaa-slr-outline" with
       | Some _ => []
       | None => ["noaa-slr-outline"]
       end.
Proof.
  unfold addSlrOverlay, getSource, getLayer, addSource, addLayer.
  destruct (map_sources m !! "noaa-slr") eqn:S; simpl;
    destruct (map_layers m !! "noaa-slr-fill") eqn:F; simpl;
    rewrite ?lookup_insert_ne by discriminate;
    destruct (map_layers m !! "noaa-slr-outline") eqn:O; simpl;
    rewrite ?app_nil_r, <- ?app_assoc; reflexivity.
Qed.

Lemma addSlrOverlay_layer_source (fs : option (list feature)) (m : mapInstance)
    (k src : string) :
  map_layer_source (addSlrOverlay fs m) !! k = Some src ->
  map_layer_source m !! k = Some src \/ src = "noaa-slr".
Proof.
  unfold addSlrOverlay, getSource, getLayer, addSource, addLayer.
  destruct (map_sources m !! "noaa-slr") eqn:S; simpl;
    destruct (map_layers m !! "noaa-slr-fill") eqn:F; simpl;
    rewrite ?lookup_insert_ne by discriminate;
    destruct (map_layers m !! "noaa-slr-outline") eqn:O; simpl;
    rewrite ?lookup_insert_Some; intuition congruence.
Qed.

Lemma addSlrOverlay_new_layer_source (fs : option (list feature))
    (m : mapInstance) (k : string) :
  k = "noaa-slr-fill" \/ k = "noaa-slr-outline" ->
  map_layers m !! k = None ->
  map_layer_source (addSlrOverlay fs m) !! k = Some "noaa-slr".
Proof.
  unfold addSlrOverlay, getSource, getLayer, addSource, addLayer.
  intros [-> | ->] H;
    destruct (map_sources m !! "noaa-slr") eqn:S; simpl;
    try rewrite H; simpl;
    destruct (map_layers m !! "noaa-slr-fill") eqn:F; simpl;
    rewrite ?lookup_insert_ne by discriminate;
    try rewrite H; simpl;
    destruct (map_layers m !! "noaa-slr-outline") eqn:O; simpl;
    try discriminate;
    rewrite ?lookup_insert_eq, ?lookup_insert_ne by discriminate;
    rewrite ?lookup_insert_eq; reflexivity.
Qed.

Lemma addSlrOverlay_present (fs : option (list feature)) (m : mapInstance) :
  is_Some (map_sources m !! "noaa-slr") ->
  is_Some (map_layers m !! "noaa-slr-fill") ->
  is_Some (map_layers m !! "noaa-slr-outline") ->
  addSlrOverlay fs m = m.
Proof.
  intros [s Hs] [f Hf] [o Ho].
  unfold addSlrOverlay, getSource, getLayer. now rewrite Hs, Hf, Ho.
Qed.

Lemma addSlrOverlay_complete (fs : option (list feature)) (m : mapInstance) :
  is_Some (map_sources (addSlrOverlay fs m) !! "noaa-slr") /\
  is_Some (map_layers (addSlrOverlay fs m) !! "noaa-slr-fill") /\
  is_Some (map_layers (addSlrOverlay fs m) !! "noaa-slr-outline").
Proof.
  rewrite addSlrOverlay_sources, !addSlrOverlay_layers.
  destruct (map_sources m !! "noaa-slr"),
    (map_layers m !! "noaa-slr-fill"), (map_layers m !! "noaa-slr-outline");
    simpl; repeat split; eauto.
Qed.

Lemma omap_agree {A B : Type} (f g : A -> option B) (l : list A) :
  (forall k, k ∈ l -> f k = g k) -> omap f l = omap g l.
Proof.
  induction l as [|x l IH]; intros H; [reflexivity |].
  cbn [omap list_omap]. rewrite (H x (list_elem_of_here _ _)).
  rewrite IH; [reflexivity |].
  intros k Hk. apply H. now apply list_elem_of_further.
Qed.

(** X27: once the response is in, the map has the source [noaa-slr] and
    the layers [noaa-slr-fill] and [noaa-slr-outline].  A source that is
    added holds the Florida features of the response and nothing else;
    a layer that is added is the fill (resp. line) layer drawn from that
    source. *)
Theorem slr_overlay_added (fs : option (list feature)) (m : mapInstance) :
  (is_Some (map_sources (addSlrOverlay fs m) !! "noaa-slr") /\
   is_Some (map_layers (addSlrOverlay fs m) !! "noaa-slr-fill") /\
   is_Some (map_layers (addSlrOverlay fs m) !! "noaa-slr-outline")) /\
  (map_sources m !! "noaa-slr" = None ->
   map_sources (addSlrOverlay fs m) !! "noaa-slr"
     = Some (GeoJSON (floridaFeatures fs)) /\
   forall f, In f (floridaFeatures fs) <->
             in_florida f /\ exists l, fs = Some l /\ In f l) /\
  (map_layers m !! "noaa-slr-fill" = None ->
   map_layers (addSlrOverlay fs m) !! "noaa-slr-fill" = Some slr_fill_layer /\
   map_layer_source (addSlrOverlay fs m) !! "noaa-slr-fill" = Some "noaa-slr") /\
  (map_layers m !! "noaa-slr-outline" = None ->
   map_layers (addSlrOverlay fs m) !! "noaa-slr-outline"
     = Some slr_outline_layer /\
   map_layer_source (addSlrOverlay fs m) !! "noaa-slr-outline"
     = Some "noaa-slr").
Proof.
  split; [apply addSlrOverlay_complete |]. split; [|split].
  - intros H. split.
    + now rewrite addSlrOverlay_sources, H.
    + intros f. destruct fs as [l|]; simpl.
      * rewrite filter_In, isFlorida_spec. split.
        -- intros [Hin Hf]. split; [exact Hf | now exists l].
        -- intros [Hf (l' & [= <-] & Hin)]. now split.
      * split; [contradiction | intros [_ (l & Hl & _)]; discriminate].
  - intros H. split.
    + now rewrite addSlrOverlay_layers, H.
    + apply addSlrOverlay_new_layer_source; [now left | exact H].
  - intros H. split.
    + now rewrite addSlrOverlay_layers, H.
    + apply addSlrOverlay_new_layer_source; [now right | exact H].
Qed.

Lemma slr_overlay_added_witness :
  map_sources
    (addSlrOverlay
       (Some [feature_of_state (JStr "FL") "a"; feature_of_state (JStr "GA") "b"])
       sample_instance) !! "noaa-slr"
  = Some (GeoJSON [feature_of_state (JStr "FL") "a"]).
Proof.
  apply (proj1 (proj2 (slr_overlay_added
           (Some [feature_of_state (JStr "FL") "a";
                  feature_of_state (JStr "GA") "b"]) sample_instance))).
  reflexivity.
Defined.

(** X28: the overlay is set up once.  After a response has been handled,
    a further response, whatever it holds and whether it fails or not,
    leaves the map as it is: the first data stay.  A failed request
    leaves the map untouched and logs one error; a successful one logs
    nothing. *)
Theorem slr_overlay_only_once
    (fs : option (list feature)) (again : option (option (list feature)))
    (m : mapInstance) :
  fst (onMapLoad again (fst (onMapLoad (Some fs) m)))
    = fst (onMapLoad (Some fs) m) /\
  onMapLoad None m = (m, [ConsoleError "Failed to load NOAA SLR layer"]) /\
  snd (onMapLoad (Some fs) m) = [].
Proof.
  split; [|split; reflexivity].
  destruct again as [fs'|]; [|reflexivity]. simpl.
  destruct (addSlrOverlay_complete fs m) as (Hs & Hf & Ho).
  now apply addSlrOverlay_present.
Qed.

(** X29: the overlay leaves what is there alone.  Every layer and every
    source the map had is kept as it was, and on a well-formed map the
    layers found by the fallback of [handleLoadComplete] are the same
    with and without the overlay: the overlay layers are never taken
    for LiDAR point layers. *)
Theorem slr_overlay_keeps_existing (fs : option (list feature)) (m : mapInstance) :
  (forall k l, map_layers m !! k = Some l ->
               map_layers (addSlrOverlay fs m) !! k = Some l) /\
  (forall k s, map_sources m !! k = Some s ->
               map_sources (addSlrOverlay fs m) !! k = Some s) /\
  (well_formed m -> lidarCircleIds (addSlrOverlay fs m) = lidarCircleIds m).
Proof.
  split; [|split].
  - intros k l H. now rewrite addSlrOverlay_layers, H.
  - intros k s H. now rewrite addSlrOverlay_sources, H.
  - intros (_ & Hdom & _). unfold lidarCircleIds, getStyleLayers.
    rewrite addSlrOverlay_order, !omap_app, !List.filter_app, !List.map_app.
    rewrite (omap_agree _ (fun id => pair id <$> map_layers m !! id)).
    + assert (E : forall k : string, k = "noaa-slr-fill" \/ k = "noaa-slr-outline" ->
        List.map fst (List.filter isLidarCircle
          (omap (fun id => pair id <$> map_layers (addSlrOverlay fs m) !! id)
             (match map_layers m !! k with Some _ => [] | None => [k] end)))
        = []).
      { intros k Hk. destruct (map_layers m !! k) eqn:K; [reflexivity |].
        cbn [omap list_omap]. rewrite addSlrOverlay_layers, K.
        destruct Hk as [-> | ->]; reflexivity. }
      rewrite (E "noaa-slr-fill") by now left.
      rewrite (E "noaa-slr-outline") by now right.
      now rewrite !app_nil_r.
    + intros k Hk. apply Hdom in Hk as [l Hl].
      now rewrite addSlrOverlay_layers, Hl.
Qed.

(** X30: the overlay keeps the map well formed: the drawing order still
    lists every layer exactly once, and every layer that draws from a
    source finds it; the overlay layers are added on top. *)
Theorem slr_overlay_preserves_well_formed
    (fs : option (list feature)) (m : mapInstance) :
  well_formed m ->
  well_formed (addSlrOverlay fs m) /\
  exists top, map_order (addSlrOverlay fs m) = map_order m ++ top.
Proof.
  intros (Hnd & Hdom & Hsrc). split; [|rewrite addSlrOverlay_order; eauto].
  split; [|split].
  - rewrite addSlrOverlay_order.
    assert (F : map_layers m !! "noaa-slr-fill" = None ->
                "noaa-slr-fill" ∉ map_order m)
      by (intros E [l Hl]%Hdom; congruence).
    assert (O : map_layers m !! "noaa-slr-outline" = None ->
                "noaa-slr-outline" ∉ map_order m)
      by (intros E [l Hl]%Hdom; congruence).
    destruct (map_layers m !! "noaa-slr-fill"),
      (map_layers m !! "noaa-slr-outline"); cbn [app]; rewrite ?app_nil_r.
    + exact Hnd.
    + apply NoDup_app. repeat split; [exact Hnd | | apply NoDup_singleton].
      intros x Hx ->%list_elem_of_singleton. now apply O.
    + apply NoDup_app. repeat split; [exact Hnd | | apply NoDup_singleton].
      intros x Hx ->%list_elem_of_singleton. now apply F.
    + apply NoDup_app. repeat split; [exact Hnd | |].
      * intros x Hx [->|Hy]%elem_of_cons.
        -- now apply F.
        -- apply list_elem_of_singleton in Hy as ->. now apply O.
      * constructor; [|apply NoDup_singleton].
        intros ?%list_elem_of_singleton. discriminate.
  - intros id. rewrite addSlrOverlay_order, addSlrOverlay_layers, !elem_of_app.
    rewrite Hdom.
    assert (E : forall k : string,
               id ∈ match map_layers m !! k with
                    | Some _ => []
                    | None => [k]
                    end <-> id = k /\ map_layers m !! k = None).
    { intros k. destruct (map_layers m !! k).
      - rewrite elem_of_nil. split; [contradiction | intros [_ H]; discriminate].
      - rewrite list_elem_of_singleton. tauto. }
    rewrite !E. clear E.
    destruct (map_layers m !! id) eqn:K.
    + split; [eauto | intros _; left; eauto].
    + destruct (decide (id = "noaa-slr-fill")) as [->|Hf];
        [split; eauto |].
      destruct (decide (id = "noaa-slr-outline")) as [->|Ho];
        [split; eauto |].
      split.
      * intros [[l Hl]|[[H _]|[H _]]]; [discriminate | contradiction ..].
      * intros [l Hl]. discriminate.
  - intros id src H.
    destruct (addSlrOverlay_layer_source _ _ _ _ H) as [H'| ->].
    + destruct (Hsrc id src H') as [s Hs].
      exists s. now rewrite addSlrOverlay_sources, Hs.
    + apply addSlrOverlay_complete.
Qed.

Ltac sample_well_formed :=
  split; [|split];
  [ apply (bool_decide_unpack _); vm_compute; exact I
  | intros id; unfold sample_instance; cbn [map_order map_layers];
    rewrite !elem_of_cons, elem_of_nil, !lookup_insert_is_Some', lookup_empty;
    split; [intros [->|[->|[->|[]]]]; auto
           | intros [<-|[<-|[<-|[x Hx]]]]; [auto .. | discriminate]]
  | intros id src; unfold sample_instance;
    cbn [map_layer_source map_sources];
    rewrite lookup_insert_Some, lookup_empty;
    intros [[_ <-]|[_ H]]; [now eexists | discriminate] ].

Lemma slr_overlay_keeps_existing_witness :
  lidarCircleIds (addSlrOverlay (Some []) sample_instance)
    = lidarCircleIds sample_instance.
Proof.
  apply (proj2 (proj2 (slr_overlay_keeps_existing (Some []) sample_instance))).
  sample_well_formed.
Defined.

Lemma slr_overlay_preserves_well_formed_witness :
  well_formed (addSlrOverlay (Some [feature_of_state (JStr "FL") "a"])
                 sample_instance).
Proof.
  apply (slr_overlay_preserves_well_formed
           (Some [feature_of_state (JStr "FL") "a"]) sample_instance).
  sample_well_formed.
Defined.

End OverlayMore.
